(** * Information quantities of a two-class Gaussian mixture

    A shallow embedding of [infoGauss.c] (mutual information) and
    [dinidlGaussTheta.c] (minimal communication information loss), and the
    properties of the two programs that their specification states.

    Both programs compute on C doubles through [+ - * /], [<], [isfinite] and
    libm's [exp], [log] and [sqrt].  The embedding is written once over that
    interface ([DoubleOps]); it is then read at two instances: IEEE binary64
    itself (Rocq's primitive floats, libm left open) and an idealised double
    that computes exactly on finite values and keeps the IEEE special values
    ([xreal]).  The cubature routine [hcubature_v] and the GSL minimiser are
    libraries outside the two files and stay parameters. *)

From Stdlib Require Import Floats Uint63.
From Stdlib Require Import ZArith QArith Reals Qreals Lra Lia List Bool.
Import ListNotations.

Set Implicit Arguments.

(* Numerals are naturals unless a scope says otherwise. *)
Close Scope Q_scope.
Close Scope R_scope.
Close Scope float_scope.
Close Scope uint63_scope.

(** ** Doubles as an interface *)

(** [lit q] is the double denoted by the decimal literal [q] of the source
    text, [M_PI] the constant of math.h. *)
Class DoubleOps (D : Type) : Type := {
  lit : Q -> D;
  M_PI : D;
  dadd : D -> D -> D;
  dsub : D -> D -> D;
  dmul : D -> D -> D;
  ddiv : D -> D -> D;
  dneg : D -> D;
  dexp : D -> D;
  dlog : D -> D;
  dsqrt : D -> D;
  dlt : D -> D -> bool;
  isfinite : D -> bool
}.

Declare Scope double_scope.
Delimit Scope double_scope with D.
Infix "+" := dadd : double_scope.
Infix "-" := dsub : double_scope.
Infix "*" := dmul : double_scope.
Infix "/" := ddiv : double_scope.
Notation "- x" := (dneg x) : double_scope.
Infix "<?" := dlt : double_scope.

(** ** Arrays *)

(** A C array of doubles is a list; [a[i]] reads it and [a[i] = v] writes
    it.  Every index the two programs use is inside its array; a read outside
    yields [lit 0] here and a write outside is dropped. *)
Definition rd {D} `{DoubleOps D} (a : list D) (i : nat) : D := nth i a (lit 0).

Fixpoint wr {D} (a : list D) (i : nat) (v : D) : list D :=
  match a, i with
  | [], _ => []
  | _ :: t, O => v :: t
  | h :: t, S j => h :: wr t j v
  end.

(** [double a[n];] declares [n] cells of indeterminate content: whatever
    [junk] says. *)
Definition uninit {D} (junk : nat -> D) (n : nat) : list D := map junk (seq 0 n).

(** ** The cubature library, and the record of its calls *)

Inductive error_norm : Set :=
  ERROR_INDIVIDUAL | ERROR_PAIRED | ERROR_L2 | ERROR_L1 | ERROR_LINF.

(** A vectorised integrand [int f(ndim, npt, x, fdata, fdim, fval)]: the
    model returns the cells of [fval] it has written. *)
Definition integrand_v (D : Type) : Type :=
  nat -> nat -> list D -> list D -> nat -> list D.

(** The arguments of one call
    [hcubature_v(fdim, f, fdata, dim, xmin, xmax, maxEval, reqAbsError,
    reqRelError, norm, val, err)]. *)
Record hcub_call (D : Type) : Type := HcubCall {
  c_fdim : nat;
  c_f : integrand_v D;
  c_fdata : list D;
  c_dim : nat;
  c_xmin : list D;
  c_xmax : list D;
  c_maxEval : nat;
  c_reqAbsError : D;
  c_reqRelError : D;
  c_norm : error_norm
}.

(** The routine itself is a parameter: from the arguments of a call to the
    pair [(val, err)] it stores. *)
Definition cubature (D : Type) : Type := hcub_call D -> D * D.

(** A computation that calls the integrator returns its value together with
    the calls it has made, oldest first. *)
Definition Traced (D A : Type) : Type := (A * list (hcub_call D))%type.

Definition ret {D A} (a : A) : Traced D A := (a, []).

Definition bind {D A B} (m : Traced D A) (k : A -> Traced D B) : Traced D B :=
  let (a, l) := m in let (b, l') := k a in (b, l ++ l').

Definition value {D A} (m : Traced D A) : A := fst m.
Definition calls {D A} (m : Traced D A) : list (hcub_call D) := snd m.

Declare Scope traced_scope.
Delimit Scope traced_scope with traced.
Notation "x <- m ;; k" := (bind m (fun x => k))
  (at level 61, m at next level, right associativity) : traced_scope.
Notation "' p <- m ;; k" := (bind m (fun x => let 'p := x in k))
  (at level 61, p pattern, m at next level, right associativity) : traced_scope.

Definition hcubature_v {D} (hcub : cubature D) (fdim : nat) (f : integrand_v D)
    (fdata : list D) (dim : nat) (xmin xmax : list D) (maxEval : nat)
    (reqAbsError reqRelError : D) (norm : error_norm) : Traced D (D * D) :=
  let c := HcubCall fdim f fdata dim xmin xmax maxEval reqAbsError reqRelError norm in
  (hcub c, [c]).

(** ** The GSL one-dimensional minimiser *)

(** [gsl_min_fminimizer] as the program uses it: [fmin_set] stores the
    function and the bracket, [fmin_iterate] refines the bracket once (both may
    evaluate the function, hence call the integrator), the three accessors
    read the state, and [min_test_interval x_lower x_upper epsabs epsrel] is
    [gsl_min_test_interval], which returns a GSL status code. *)
Record fminimizer (D : Type) : Type := {
  fmin_state : Type;
  fmin_set : (D -> Traced D D) -> D -> D -> D -> Traced D fmin_state;
  fmin_iterate : fmin_state -> Traced D fmin_state;
  fmin_x_lower : fmin_state -> D;
  fmin_x_upper : fmin_state -> D;
  fmin_f_minimum : fmin_state -> D;
  min_test_interval : D -> D -> D -> D -> Z
}.

Definition GSL_SUCCESS : Z := 0.
Definition GSL_CONTINUE : Z := -2.

(** ** dinidlGaussTheta.c *)

Module dinidlGaussTheta.

(** The three accumulators of one point of [NDIntegrand]. *)
Record acc (D : Type) : Type := Acc { dinow : D; px : D; pix : D }.

(** The three thresholds of [mexFunction] and the losses cached for them. *)
Record bracket (D : Type) : Type := Bracket {
  thl : D; thm : D; thr : D;
  dil : D; dim : D; dir : D
}.

Section Program.
Context {D : Type} {ops : DoubleOps D}.
Local Open Scope double_scope.
Local Open Scope traced_scope.

(** [double mu[2] = {1,-1};] *)
Definition mu : list D := [lit 1; lit (-1)].

(** Lines 106-112, the loop over the coordinates of one point:
    [xc = x[0] + mu[indmu]; xcprod *= xc; xc2sum += xc*xc; x++;].
    [x] is the pointer, [hd] reads the cell under it (a cell past the end of
    the array reads as [lit 0]) and [tl] moves it on. *)
Fixpoint center (xdim : nat) (x : list D) (m : D) (xcprod xc2sum : D) : D * D :=
  match xdim with
  | O => (xcprod, xc2sum)
  | S n =>
      let xc := hd (lit 0) x + m in
      center n (tl x) m (xcprod * xc) (xc2sum + xc * xc)
  end.

(** Lines 103-119: the densities of class [indmu] at the point under [x]:
    [psx] of the model and [pisx] of the reference model. *)
Definition densities (xdim : nat) (x params : list D) (indmu : nat) : D * D :=
  let '(xcprod, xc2sum) := center xdim x (rd mu indmu) (lit 1) (lit 0) in
  let xc2sum := xc2sum * lit (-0.5) in
  let psx := rd params (indmu + 2)
             * dexp (rd params (indmu + 4) * xc2sum + rd params (indmu + 6) * xcprod) in
  let pisx := rd params (indmu + 0) * dexp (rd params (indmu + 8) * xc2sum) in
  (psx, pisx).

(** Lines 103-124, one turn of the loop over the two classes. *)
Definition class_step (xdim : nat) (x params : list D) (indmu : nat) (a : acc D) : acc D :=
  let '(psx, pisx) := densities xdim x params indmu in
  {| px := px a + psx;
     pix := pix a + pisx;
     dinow := dinow a + psx * dlog (psx / pisx) |}.

(** Lines 101-126: [for(indmu=0;indmu<2;indmu++) { ...; if(!isfinite(dinow)) break; }];
    [n] counts the turns that are left. *)
Fixpoint class_loop (xdim : nat) (x params : list D) (n indmu : nat) (a : acc D) : acc D :=
  match n with
  | O => a
  | S n' =>
      let a' := class_step xdim x params indmu a in
      if isfinite (dinow a') then class_loop xdim x params n' (S indmu) a' else a'
  end.

(** Lines 97-134: the value stored in [dival[indx]]. *)
Definition point (xdim : nat) (x params : list D) : D :=
  let a := class_loop xdim x params 2 0 (Acc (lit 0) (lit 0) (lit 0)) in
  if isfinite (dinow a) then
    let d := dinow a - px a * dlog (px a / pix a) in
    if isfinite d then d else lit 0
  else lit 0.

(** Lines 95-137: the loop over the points; [x += xdim] is [skipn]. *)
Fixpoint points (xdim numx : nat) (x params : list D) : list D :=
  match numx with
  | O => []
  | S n => point xdim x params :: points xdim n (skipn xdim x) params
  end.

Definition NDIntegrand : integrand_v D :=
  fun xdim numx x par didim => points xdim numx x par.

Variable hcub : cubature D.
Variable junk : nat -> D.

(** [double diTheta(double th, double * const par)] *)
Definition diTheta (th : D) (par : list D) : Traced D D :=
  let params := uninit junk 10 in
  let xmin := [lit (-5); lit (-5)] in
  let xmax := [lit 5; lit 5] in
  let params := wr params 0 (rd par 0) in
  let params := wr params 1 (lit 1 - rd par 0) in
  let params := wr params 4 (lit 1.0 / (lit 1.0 - rd par 1 * rd par 1)) in
  let params := wr params 5 (lit 1.0 / (lit 1.0 - rd par 2 * rd par 2)) in
  let params := wr params 2 (rd params 0 * dsqrt (rd params 4) / (lit 2.0 * M_PI)) in
  let params := wr params 3 (rd params 1 * dsqrt (rd params 5) / (lit 2.0 * M_PI)) in
  let params := wr params 6 (rd par 1 * rd params 4) in
  let params := wr params 7 (rd par 2 * rd params 5) in
  let params := wr params 8 th in
  let params := wr params 9 th in
  '(dival2D, errorval) <-
    hcubature_v hcub 1 NDIntegrand params 2 xmin xmax 1000 (lit 1E-6) (lit 1E-3)
      ERROR_INDIVIDUAL ;;
  let params := wr params 0 (rd params 1) in
  let params := wr params 1 (rd par 0) in
  let params := wr params 4 (lit 1) in
  let params := wr params 5 (lit 1) in
  let params := wr params 2 (rd params 0 / dsqrt (lit 2.0 * M_PI)) in
  let params := wr params 3 (rd params 1 / dsqrt (lit 2.0 * M_PI)) in
  let params := wr params 6 (lit 0) in
  let params := wr params 7 (lit 0) in
  '(dival1D, errorval) <-
    hcubature_v hcub 1 NDIntegrand params 1 xmin xmax 1000 (lit 1E-6) (lit 1E-3)
      ERROR_INDIVIDUAL ;;
  ret (dival1D + dival2D).

(** Lines 192-197.  A loop of the program that may run for ever is given
    [fuel]: the number of times its test may be evaluated; [None] says the
    fuel ran out before the loop was left. *)
Fixpoint lower_loop (par : list D) (fuel : nat) (b : bracket D)
    : Traced D (option (bracket D)) :=
  match fuel with
  | O => ret None
  | S k =>
      if dil b <? dim b then
        let thl' := thl b * lit 2 in
        dil' <- diTheta thl' par ;;
        lower_loop par k
          {| dir := dim b; dim := dil b; thr := thm b; thm := thl b;
             thl := thl'; dil := dil' |}
      else ret (Some b)
  end.

(** Lines 200-205. *)
Fixpoint upper_loop (par : list D) (fuel : nat) (b : bracket D)
    : Traced D (option (bracket D)) :=
  match fuel with
  | O => ret None
  | S k =>
      if dir b <? dim b then
        let thr' := thr b * lit 2 in
        dir' <- diTheta thr' par ;;
        upper_loop par k
          {| dil := dim b; dim := dir b; thl := thm b; thm := thr b;
             thr := thr'; dir := dir' |}
      else ret (Some b)
  end.

(** Lines 184-205: the seed triple and the two loops. *)
Definition bracket_search (par : list D) (fuel : nat) : Traced D (option (bracket D)) :=
  let thl0 := lit (-0.5) in
  let thm0 := lit 0.5 in
  let thr0 := lit 1.5 in
  dil0 <- diTheta thl0 par ;;
  dim0 <- diTheta thm0 par ;;
  dir0 <- diTheta thr0 par ;;
  ob <- lower_loop par fuel (Bracket thl0 thm0 thr0 dil0 dim0 dir0) ;;
  match ob with
  | None => ret None
  | Some b => upper_loop par fuel b
  end.

Variable gsl : fminimizer D.

(** The variables the refinement loop of lines 217-223 reads and writes. *)
Record refinement : Type := Refinement {
  s : fmin_state gsl;
  r_thl : D;
  r_thr : D;
  iter : Z
}.

Definition max_iter : Z := 1000.

(** Lines 219-221, the body of the do-while. *)
Definition refine_body (r : refinement) : Traced D refinement :=
  s' <- fmin_iterate gsl (s r) ;;
  ret {| s := s'; r_thl := fmin_x_lower gsl s'; r_thr := fmin_x_upper gsl s';
         iter := iter r |}.

(** Line 223, its test. *)
Definition refine_test (r : refinement) : bool :=
  (min_test_interval gsl (r_thl r) (r_thr r) (lit 1E-6) (lit 1E-3) =? GSL_CONTINUE)%Z
  && (iter r <? max_iter)%Z.

(** Lines 217-223.  The result counts the executions of the body (a ghost of
    the model) and gives the variables at the exit, or [None] when [fuel]
    executions of the body did not reach it. *)
Fixpoint refine_loop (fuel : nat) (r : refinement) : Traced D (nat * option refinement) :=
  match fuel with
  | O => ret (O, None)
  | S k =>
      r' <- refine_body r ;;
      if refine_test r' then
        '(n, out) <- refine_loop k r' ;;
        ret (S n, out)
      else ret (1%nat, Some r')
  end.

(** [void mexFunction(...)]: [par] is the data of [prhs[0]], the result is
    the scalar stored in [plhs[0]]. *)
Definition mexFunction (fuel : nat) (par : list D) : Traced D (option D) :=
  ob <- bracket_search par fuel ;;
  match ob with
  | None => ret None
  | Some b =>
      s0 <- fmin_set gsl (fun x => diTheta x par) (thm b) (thl b) (thr b) ;;
      '(_, out) <- refine_loop fuel (Refinement s0 (thl b) (thr b) 0) ;;
      match out with
      | None => ret None
      | Some r => ret (Some (fmin_f_minimum gsl (s r)))
      end
  end.

End Program.
End dinidlGaussTheta.

(** ** infoGauss.c *)

Module infoGauss.

(** The two accumulators of one point of [NDIntegrand]. *)
Record acc (D : Type) : Type := Acc { infonow : D; px : D }.

Section Program.
Context {D : Type} {ops : DoubleOps D}.
Local Open Scope double_scope.
Local Open Scope traced_scope.

(** [double mu[2] = {1,-1};] *)
Definition mu : list D := [lit 1; lit (-1)].

(** Lines 100-106, the loop over the coordinates of one point. *)
Fixpoint center (xdim : nat) (x : list D) (m : D) (xcprod xc2sum : D) : D * D :=
  match xdim with
  | O => (xcprod, xc2sum)
  | S n =>
      let xc := hd (lit 0) x + m in
      center n (tl x) m (xcprod * xc) (xc2sum + xc * xc)
  end.

(** Lines 97-112: the density [psx] of class [indmu] at the point under [x]. *)
Definition density (xdim : nat) (x params : list D) (indmu : nat) : D :=
  let '(xcprod, xc2sum) := center xdim x (rd mu indmu) (lit 1) (lit 0) in
  let xc2sum := xc2sum * lit (-0.5) in
  rd params (indmu + 2)
  * dexp (rd params (indmu + 4) * xc2sum + rd params (indmu + 6) * xcprod).

(** Lines 97-116, one turn of the loop over the two classes. *)
Definition class_step (xdim : nat) (x params : list D) (indmu : nat) (a : acc D) : acc D :=
  let psx := density xdim x params indmu in
  {| px := px a + psx;
     infonow := infonow a + psx * dlog psx |}.

(** Lines 95-118, with the [break] of line 117. *)
Fixpoint class_loop (xdim : nat) (x params : list D) (n indmu : nat) (a : acc D) : acc D :=
  match n with
  | O => a
  | S n' =>
      let a' := class_step xdim x params indmu a in
      if isfinite (infonow a') then class_loop xdim x params n' (S indmu) a' else a'
  end.

(** Lines 92-126: the value stored in [infoval[indx]]. *)
Definition point (xdim : nat) (x params : list D) : D :=
  let a := class_loop xdim x params 2 0 (Acc (lit 0) (lit 0)) in
  if isfinite (infonow a) then
    let d := infonow a - px a * dlog (px a) in
    if isfinite d then d else lit 0
  else lit 0.

(** Lines 90-129: the loop over the points. *)
Fixpoint points (xdim numx : nat) (x params : list D) : list D :=
  match numx with
  | O => []
  | S n => point xdim x params :: points xdim n (skipn xdim x) params
  end.

Definition NDIntegrand : integrand_v D :=
  fun xdim numx x par infodim => points xdim numx x par.

Variable hcub : cubature D.
Variable junk : nat -> D.

(** [void mexFunction(...)]: [dims] are the two [int] values the code reads
    as [parnum[0]] and [parnum[1]] at line 138, where the result of
    [mxGetDimensions] is cast to a pointer to [int]; they are the two
    dimensions of [prhs[0]] where the size type of the interface is as wide
    as [int], and its first dimension cut in two where it is twice as wide.  [par] is the data of [prhs[0]] and the result
    the scalar stored in [plhs[0]].  Lines 139 and 167 write into [parnum[0]],
    a cell of the dimension vector of the input array: [parnum0] holds what
    they write for the rest of the run, and what becomes of the input array
    afterwards is outside the model. *)
Definition mexFunction (dims : Z * Z) (par : list D) : Traced D D :=
  let parnum0 := if (fst dims <? snd dims)%Z then snd dims else fst dims in
  let params := uninit junk 8 in
  let xmin := [lit (-5); lit (-5)] in
  let xmax := [lit 5; lit 5] in
  let params := wr params 0 (rd par 0) in
  let params := wr params 1 (lit 1 - rd par 0) in
  let '(params, parnum0) :=
    if (parnum0 =? 1)%Z then
      let params := wr params 4 (lit 1.0) in
      let params := wr params 5 (lit 1.0) in
      let params := wr params 2 (rd params 0 / dsqrt (lit 2.0 * M_PI)) in
      let params := wr params 3 (rd params 1 / dsqrt (lit 2.0 * M_PI)) in
      let params := wr params 6 (lit 0) in
      let params := wr params 7 (lit 0) in
      (params, parnum0)
    else
      let params := wr params 4 (lit 1.0 / (lit 1.0 - rd par 1 * rd par 1)) in
      let params := wr params 5 (lit 1.0 / (lit 1.0 - rd par 2 * rd par 2)) in
      let params := wr params 2 (rd params 0 * dsqrt (rd params 4) / (lit 2.0 * M_PI)) in
      let params := wr params 3 (rd params 1 * dsqrt (rd params 5) / (lit 2.0 * M_PI)) in
      let params := wr params 6 (rd par 1 * rd params 4) in
      let params := wr params 7 (rd par 2 * rd params 5) in
      (params, 2%Z)
  in
  '(infoval, errorval) <-
    hcubature_v hcub 1 NDIntegrand params (Z.to_nat parnum0) xmin xmax 1000
      (lit 1E-6) (lit 1E-3) ERROR_INDIVIDUAL ;;
  ret (infoval + ((- rd params 0) * dlog (rd params 0) - rd params 1 * dlog (rd params 1))).

End Program.
End infoGauss.

(** ** Idealised doubles *)

(** A double is a real number or one of the IEEE special values.  Finite
    values are computed exactly (no rounding, no overflow or underflow); the
    special values follow IEEE 754 and C's math.h.  There is one zero, read as
    +0 where its sign matters (in [x / 0]). *)
Inductive xreal : Set := Fin (r : R) | PInf | NInf | NaN.

Definition Rsgn (r : R) : comparison :=
  match total_order_T r 0%R with
  | inleft (left _) => Lt
  | inleft (right _) => Eq
  | inright _ => Gt
  end.

Definition xsgn (a : xreal) : comparison :=
  match a with Fin r => Rsgn r | PInf => Gt | NInf => Lt | NaN => Eq end.

Definition sgn_mul (s t : comparison) : comparison :=
  match s, t with
  | Eq, _ | _, Eq => Eq
  | Gt, Gt | Lt, Lt => Gt
  | _, _ => Lt
  end.

(** The infinity of a sign; an undetermined sign ([0 * inf], [0 / 0]) is NaN. *)
Definition inf_of (s : comparison) : xreal :=
  match s with Gt => PInf | Lt => NInf | Eq => NaN end.

Definition xneg (a : xreal) : xreal :=
  match a with Fin r => Fin (- r)%R | PInf => NInf | NInf => PInf | NaN => NaN end.

Definition xadd (a b : xreal) : xreal :=
  match a, b with
  | NaN, _ | _, NaN => NaN
  | Fin x, Fin y => Fin (x + y)%R
  | PInf, NInf | NInf, PInf => NaN
  | PInf, _ | _, PInf => PInf
  | NInf, _ | _, NInf => NInf
  end.

Definition xsub (a b : xreal) : xreal :=
  match a, b with
  | Fin x, Fin y => Fin (x - y)%R
  | _, _ => xadd a (xneg b)
  end.

Definition xmul (a b : xreal) : xreal :=
  match a, b with
  | NaN, _ | _, NaN => NaN
  | Fin x, Fin y => Fin (x * y)%R
  | _, _ => inf_of (sgn_mul (xsgn a) (xsgn b))
  end.

Definition xdiv (a b : xreal) : xreal :=
  match a, b with
  | NaN, _ | _, NaN => NaN
  | Fin x, Fin y =>
      match Rsgn y with
      | Eq => inf_of (Rsgn x)
      | _ => Fin (x / y)%R
      end
  | Fin _, _ => Fin 0%R
  | _, Fin y => inf_of (sgn_mul (xsgn a) (match Rsgn y with Lt => Lt | _ => Gt end))
  | _, _ => NaN
  end.

Definition xexp (a : xreal) : xreal :=
  match a with Fin r => Fin (exp r) | PInf => PInf | NInf => Fin 0%R | NaN => NaN end.

Definition xlog (a : xreal) : xreal :=
  match a with
  | Fin r => match Rsgn r with Gt => Fin (ln r) | Eq => NInf | Lt => NaN end
  | PInf => PInf
  | NInf | NaN => NaN
  end.

Definition xsqrt (a : xreal) : xreal :=
  match a with
  | Fin r => match Rsgn r with Lt => NaN | _ => Fin (sqrt r) end
  | PInf => PInf
  | NInf | NaN => NaN
  end.

Definition xlt (a b : xreal) : bool :=
  match a, b with
  | NaN, _ | _, NaN => false
  | Fin x, Fin y => if Rlt_dec x y then true else false
  | NInf, NInf | PInf, _ | _, NInf => false
  | NInf, _ | _, PInf => true
  end.

Definition xfinite (a : xreal) : bool :=
  match a with Fin _ => true | _ => false end.

#[export] Instance xreal_ops : DoubleOps xreal := {
  lit q := Fin (Q2R q);
  M_PI := Fin PI;
  dadd := xadd; dsub := xsub; dmul := xmul; ddiv := xdiv; dneg := xneg;
  dexp := xexp; dlog := xlog; dsqrt := xsqrt;
  dlt := xlt;
  isfinite := xfinite
}.



(** ** IEEE binary64 *)

(** An integer that binary64 holds exactly, as a float. *)
Definition float_of_Z (z : Z) : float :=
  match z with
  | Z0 => PrimFloat.of_uint63 0
  | Zpos _ => PrimFloat.of_uint63 (Uint63.of_Z z)
  | Zneg p => PrimFloat.opp (PrimFloat.of_uint63 (Uint63.of_Z (Zpos p)))
  end.

(** The arithmetic is that of the hardware; [exp] and [log] are libm's and
    are left open.  A literal [n/d] of the source is the quotient of two
    exact integers, rounded once, which is how a compiler reads it. *)
Definition float_ops (libm_exp libm_log : float -> float) : DoubleOps float := {|
  lit q := PrimFloat.div (float_of_Z (Qnum q)) (float_of_Z (Zpos (Qden q)));
  M_PI := 0x1.921fb54442d18p+1%float;
  dadd := PrimFloat.add; dsub := PrimFloat.sub; dmul := PrimFloat.mul;
  ddiv := PrimFloat.div; dneg := PrimFloat.opp;
  dexp := libm_exp; dlog := libm_log; dsqrt := PrimFloat.sqrt;
  dlt := PrimFloat.ltb;
  isfinite := PrimFloat.is_finite
|}.

(** ** The loss of the bracket search *)


(** ** The calls the two programs make *)

(** Both programs integrate over [-5,5]^dim with at most 1000 evaluations
    and tolerances 1E-6 (absolute) and 1E-3 (relative); a call is determined
    by its integrand, its coefficient array and its dimension. *)
Definition cubature_call {D : Type} {ops : DoubleOps D} (f : integrand_v D)
    (fdata : list D) (dim : nat) : hcub_call D :=
  HcubCall 1 f fdata dim [lit (-5); lit (-5)] [lit 5; lit 5] 1000
    (lit 1E-6) (lit 1E-3) ERROR_INDIVIDUAL.

(** ** The terms the guard looks at *)

(** The term class [indmu] adds to the running sum of a point (lines 124 and
    116 of the two files). *)
Definition divergence_term {D : Type} {ops : DoubleOps D}
    (xdim : nat) (x params : list D) (indmu : nat) : D :=
  let '(psx, pisx) := dinidlGaussTheta.densities xdim x params indmu in
  (psx * dlog (psx / pisx))%D.

Definition entropy_term {D : Type} {ops : DoubleOps D}
    (xdim : nat) (x params : list D) (indmu : nat) : D :=
  let psx := infoGauss.density xdim x params indmu in
  (psx * dlog psx)%D.

(** [guard t] is [isfinite(t) ? t : 0]. *)
Definition guard {D : Type} {ops : DoubleOps D} (t : D) : D :=
  if isfinite t then t else lit 0.

(** The guard as the specification words it: a class term that is not
    finite is replaced by 0 on its own; the term of the other class and the
    final correction of the point still count. *)
Module Claimed.
Section Claimed.
Context {D : Type} {ops : DoubleOps D}.
Local Open Scope double_scope.

Definition entropy_point (xdim : nat) (x params : list D) : D :=
  let px := lit 0 + infoGauss.density xdim x params 0
            + infoGauss.density xdim x params 1 in
  guard (lit 0 + guard (entropy_term xdim x params 0)
         + guard (entropy_term xdim x params 1)
         - px * dlog px).

Definition divergence_point (xdim : nat) (x params : list D) : D :=
  let px := lit 0 + fst (dinidlGaussTheta.densities xdim x params 0)
            + fst (dinidlGaussTheta.densities xdim x params 1) in
  let pix := lit 0 + snd (dinidlGaussTheta.densities xdim x params 0)
             + snd (dinidlGaussTheta.densities xdim x params 1) in
  guard (lit 0 + guard (divergence_term xdim x params 0)
         + guard (divergence_term xdim x params 1)
         - px * dlog (px / pix)).

End Claimed.
End Claimed.

(** ** The densities in real numbers *)

(** The formulas of the specification, over a coefficient array laid out as
    [params] is: cell [k] the mixing weight of class [k], [k+2] its
    normalisation weight [w], [k+4] its scale [a], [k+6] its cross-term
    coefficient [b] and [k+8] the scale of the reference model. *)
Module Spec.
Local Open Scope R_scope.

Definition coef (cs : list R) (i : nat) : R := nth i cs 0.

(** The shift of class [k]: +1 for the first class, -1 for the second. *)
Definition mu (k : nat) : R := match k with O => 1 | _ => -1 end.

(** [sumsq] is the squared norm [S] and [prod] the product [P] of the
    shifted coordinates. *)
Definition sumsq (k : nat) (pt : list R) : R :=
  fold_right (fun xi acc => (xi + mu k) * (xi + mu k) + acc) 0 pt.

Definition prod (k : nat) (pt : list R) : R :=
  fold_right (fun xi acc => (xi + mu k) * acc) 1 pt.

Definition psx (cs : list R) (k : nat) (pt : list R) : R :=
  coef cs (k + 2) * exp (- 0.5 * coef cs (k + 4) * sumsq k pt + coef cs (k + 6) * prod k pt).

Definition pisx (cs : list R) (k : nat) (pt : list R) : R :=
  coef cs k * exp (- 0.5 * coef cs (k + 8) * sumsq k pt).

(** The pointwise values without any guard. *)
Definition divergence (cs pt : list R) : R :=
  let px := psx cs 0 pt + psx cs 1 pt in
  let pix := pisx cs 0 pt + pisx cs 1 pt in
  psx cs 0 pt * ln (psx cs 0 pt / pisx cs 0 pt)
  + psx cs 1 pt * ln (psx cs 1 pt / pisx cs 1 pt)
  - px * ln (px / pix).

Definition entropy (cs pt : list R) : R :=
  let px := psx cs 0 pt + psx cs 1 pt in
  psx cs 0 pt * ln (psx cs 0 pt) + psx cs 1 pt * ln (psx cs 1 pt) - px * ln px.

End Spec.

(** ** The coefficient arrays in real numbers *)

(** The arrays the specification derives from the mixture parameters. *)
Module Coefficients.
Local Open Scope R_scope.

(** [a_k = 1/(1 - rho_k^2)] *)
Definition a (rho : R) : R := 1 / (1 - rho * rho).

(** The two-dimensional, correlated case: [w_k = p_k sqrt(a_k) / (2 pi)] and
    [b_k = rho_k a_k], with [p_1 = p1] and [p_2 = p2]. *)
Definition correlated (p1 p2 rho1 rho2 : R) : list R :=
  [p1; p2;
   p1 * sqrt (a rho1) / (2 * PI); p2 * sqrt (a rho2) / (2 * PI);
   a rho1; a rho2; rho1 * a rho1; rho2 * a rho2].

(** The one-dimensional case: [a_k = 1], [b_k = 0] and
    [w_k = p_k / sqrt(2 pi)]. *)
Definition marginal (p1 p2 : R) : list R :=
  [p1; p2; p1 / sqrt (2 * PI); p2 / sqrt (2 * PI); 1; 1; 0; 0].

End Coefficients.

(** ** Concrete collaborators and inputs *)

(** A minimiser that never reports convergence: its state is the bracket it
    was given, [fmin_iterate] leaves the bracket as it is and the interval
    test keeps answering [GSL_CONTINUE]. *)
Definition never_converges {D : Type} {ops : DoubleOps D} : fminimizer D := {|
  fmin_state := D * D;
  fmin_set := fun _ x_minimum x_lower x_upper => ret (x_lower, x_upper);
  fmin_iterate := fun st => ret st;
  fmin_x_lower := fst;
  fmin_x_upper := snd;
  fmin_f_minimum := fun _ => lit 0;
  min_test_interval := fun _ _ _ _ => GSL_CONTINUE
|}.

(** A minimiser that needs [n] refinements: its state counts the
    refinements that are left, its bracket is [0, 1] while one is left and
    [0, 0] after the last, and the interval test asks for an empty bracket. *)
Definition needs {D : Type} {ops : DoubleOps D} (n : nat) : fminimizer D := {|
  fmin_state := nat;
  fmin_set := fun _ _ _ _ => ret n;
  fmin_iterate := fun k => ret (Nat.pred k);
  fmin_x_lower := fun _ => lit 0;
  fmin_x_upper := fun k => match k with O => lit 0 | S _ => lit 1 end;
  fmin_f_minimum := fun _ => lit 0;
  min_test_interval := fun x_lower x_upper _ _ =>
    if dlt x_lower x_upper then GSL_CONTINUE else GSL_SUCCESS
|}.

(** An integrator that estimates every integral as 0, and the content of
    uninitialised cells read as NaN. *)
Definition zero_cubature : cubature xreal := fun _ => (Fin 0%R, Fin 0%R).
Definition nan_junk : nat -> xreal := fun _ => NaN.

(** An integrator whose estimate is [(theta - 3)^2], read off the reference
    scale in cell 8 of the coefficient array: the loss is then
    [2 (theta - 3)^2]. *)
Definition parabola_cubature : cubature xreal :=
  fun c =>
    match rd (c_fdata c) 8 with
    | Fin t => (Fin ((t - 3) * (t - 3))%R, Fin 0%R)
    | _ => (Fin 0%R, Fin 0%R)
    end.

(** A coefficient array of the entropy integrand whose first class has a
    negative weight: [w = (-1, 2)], [a = (1, 1)], [b = (0, 0)]. *)
Definition negative_weight : list R := [0; 0; -1; 2; 1; 1; 0; 0]%R.

(** A coefficient array of the divergence integrand whose first class has
    the weight 0, as a density that has underflowed: [w = (0, 2)],
    [a = (1, 1)], [b = (0, 0)], with mixing weights [(1, 1)] and reference
    scales [(1, 1)]. *)
Definition zero_weight : list R := [1; 1; 0; 2; 1; 1; 0; 0; 1; 1]%R.

(** ** The states of the minimiser *)

(** The state of the minimiser after [n] refinements of [s0]. *)
Fixpoint refined {D : Type} (gsl : fminimizer D) (n : nat) (s0 : fmin_state gsl)
    : fmin_state gsl :=
  match n with
  | O => s0
  | S k => refined gsl k (value (fmin_iterate gsl s0))
  end.

(** The answer of the interval test of line 223 on the bracket of state [s0]. *)
Definition interval_test {D : Type} {ops : DoubleOps D} (gsl : fminimizer D)
    (s0 : fmin_state gsl) : Z :=
  min_test_interval gsl (fmin_x_lower gsl s0) (fmin_x_upper gsl s0)
    (lit 1E-6) (lit 1E-3).

(** ** The shapes of a bracket *)

(** The three thresholds of a bracket as real numbers. *)
Definition thresholds (b : dinidlGaussTheta.bracket xreal) (l m r : R) : Prop :=
  dinidlGaussTheta.thl b = Fin l
  /\ dinidlGaussTheta.thm b = Fin m
  /\ dinidlGaussTheta.thr b = Fin r.

(** The seed triple; a triple shifted to the left, whose lower threshold is
    twice the middle one and whose middle loss is below the right one; a triple
    shifted to the right, whose upper threshold is twice the middle one and
    whose middle loss is below the left one. *)
Definition seeds (b : dinidlGaussTheta.bracket xreal) : Prop :=
  thresholds b (-0.5) 0.5 1.5.

Definition shifted_left (b : dinidlGaussTheta.bracket xreal) : Prop :=
  exists l m r : R,
    thresholds b l m r
    /\ (l = 2 * m /\ m < 0 /\ m < r /\ r <= 0.5)%R
    /\ xlt (dinidlGaussTheta.dim b) (dinidlGaussTheta.dir b) = true.

Definition shifted_right (b : dinidlGaussTheta.bracket xreal) : Prop :=
  exists l m r : R,
    thresholds b l m r
    /\ (r = 2 * m /\ 0.5 <= l /\ l < m)%R
    /\ xlt (dinidlGaussTheta.dim b) (dinidlGaussTheta.dil b) = true.

(** ** The turns of the bracket search *)





(** ** Computations with a record of calls *)

Section TracedLemmas.
Context {D : Type}.

Lemma value_bind A B (m : Traced D A) (k : A -> Traced D B) :
  value (bind m k) = value (k (value m)).
Proof.
  unfold value, bind. destruct m as [a l]. simpl. now destruct (k a).
Qed.

Lemma calls_bind A B (m : Traced D A) (k : A -> Traced D B) :
  calls (bind m k) = calls m ++ calls (k (value m)).
Proof.
  unfold calls, value, bind. destruct m as [a l]. simpl. now destruct (k a).
Qed.

Lemma value_ret A (a : A) : value (ret a : Traced D A) = a.
Proof. reflexivity. Qed.

Lemma calls_ret A (a : A) : calls (ret a : Traced D A) = [].
Proof. reflexivity. Qed.

End TracedLemmas.

(** ** The integrands work point by point *)

Module Pointwise.
Section Pointwise.
Context {D : Type} {ops : DoubleOps D}.

Lemma skipn_length_app (pt rest : list D) : skipn (length pt) (pt ++ rest) = rest.
Proof. induction pt; simpl; auto. Qed.

Lemma di_center_app xdim : forall (pt rest : list D) m p s,
  length pt = xdim ->
  dinidlGaussTheta.center xdim (pt ++ rest) m p s = dinidlGaussTheta.center xdim pt m p s.
Proof.
  induction xdim as [|n IH]; intros pt rest m p s Hlen; simpl; auto.
  destruct pt as [|h t]; [discriminate|]. simpl in *. apply IH. lia.
Qed.

Lemma info_center_app xdim : forall (pt rest : list D) m p s,
  length pt = xdim ->
  infoGauss.center xdim (pt ++ rest) m p s = infoGauss.center xdim pt m p s.
Proof.
  induction xdim as [|n IH]; intros pt rest m p s Hlen; simpl; auto.
  destruct pt as [|h t]; [discriminate|]. simpl in *. apply IH. lia.
Qed.

Lemma di_class_loop_app xdim (pt rest params : list D) : length pt = xdim ->
  forall n indmu a,
  dinidlGaussTheta.class_loop xdim (pt ++ rest) params n indmu a
  = dinidlGaussTheta.class_loop xdim pt params n indmu a.
Proof.
  intros Hlen. induction n as [|n IH]; intros indmu a; simpl; auto.
  unfold dinidlGaussTheta.class_step, dinidlGaussTheta.densities.
  rewrite di_center_app by assumption.
  destruct (dinidlGaussTheta.center xdim pt _ _ _) as [xcprod xc2sum].
  cbv zeta. destruct (isfinite _); auto.
Qed.

Lemma info_class_loop_app xdim (pt rest params : list D) : length pt = xdim ->
  forall n indmu a,
  infoGauss.class_loop xdim (pt ++ rest) params n indmu a
  = infoGauss.class_loop xdim pt params n indmu a.
Proof.
  intros Hlen. induction n as [|n IH]; intros indmu a; simpl; auto.
  unfold infoGauss.class_step, infoGauss.density.
  rewrite info_center_app by assumption.
  destruct (infoGauss.center xdim pt _ _ _) as [xcprod xc2sum].
  cbv zeta. destruct (isfinite _); auto.
Qed.

Lemma di_point_app xdim (pt rest params : list D) : length pt = xdim ->
  dinidlGaussTheta.point xdim (pt ++ rest) params = dinidlGaussTheta.point xdim pt params.
Proof.
  intros Hlen. unfold dinidlGaussTheta.point. now rewrite di_class_loop_app.
Qed.

Lemma info_point_app xdim (pt rest params : list D) : length pt = xdim ->
  infoGauss.point xdim (pt ++ rest) params = infoGauss.point xdim pt params.
Proof.
  intros Hlen. unfold infoGauss.point. now rewrite info_class_loop_app.
Qed.

Lemma di_points_concat xdim (params : list D) (pts : list (list D)) :
  Forall (fun pt => length pt = xdim) pts ->
  dinidlGaussTheta.points xdim (length pts) (concat pts) params
  = map (fun pt => dinidlGaussTheta.point xdim pt params) pts.
Proof.
  induction 1 as [|pt pts Hlen _ IH]; simpl; auto.
  rewrite di_point_app by assumption. f_equal.
  replace (skipn xdim (pt ++ concat pts)) with (concat pts); [exact IH|].
  rewrite <- Hlen. symmetry. apply skipn_length_app.
Qed.

Lemma info_points_concat xdim (params : list D) (pts : list (list D)) :
  Forall (fun pt => length pt = xdim) pts ->
  infoGauss.points xdim (length pts) (concat pts) params
  = map (fun pt => infoGauss.point xdim pt params) pts.
Proof.
  induction 1 as [|pt pts Hlen _ IH]; simpl; auto.
  rewrite info_point_app by assumption. f_equal.
  replace (skipn xdim (pt ++ concat pts)) with (concat pts); [exact IH|].
  rewrite <- Hlen. symmetry. apply skipn_length_app.
Qed.

End Pointwise.
End Pointwise.

(** C9. For every arithmetic, coefficient array, dimension and batch of
    points of that dimension, either integrand applied to the whole batch
    returns, in order, exactly the values of its separate applications to each
    point alone: the value at a point depends on that point and the
    coefficients only, not on the size of the batch or on the point's place in
    it. *)
Theorem NDIntegrand_pointwise :
  forall (D : Type) (ops : DoubleOps D) (xdim : nat) (pts : list (list D))
         (params : list D) (fdim : nat),
    Forall (fun pt => length pt = xdim) pts ->
    dinidlGaussTheta.NDIntegrand xdim (length pts) (concat pts) params fdim
    = flat_map (fun pt => dinidlGaussTheta.NDIntegrand xdim 1 pt params fdim) pts
    /\ infoGauss.NDIntegrand xdim (length pts) (concat pts) params fdim
       = flat_map (fun pt => infoGauss.NDIntegrand xdim 1 pt params fdim) pts.
Proof.
  intros D ops xdim pts params fdim Hpts.
  unfold dinidlGaussTheta.NDIntegrand, infoGauss.NDIntegrand. split.
  - rewrite Pointwise.di_points_concat by assumption.
    clear Hpts. induction pts as [|pt pts IH]; simpl; [reflexivity|].
    now f_equal.
  - rewrite Pointwise.info_points_concat by assumption.
    clear Hpts. induction pts as [|pt pts IH]; simpl; [reflexivity|].
    now f_equal.
Qed.

Lemma NDIntegrand_pointwise_witness :
  dinidlGaussTheta.NDIntegrand 1 2 (concat [[Fin 1]; [Fin 0]]) (map Fin negative_weight) 1
  = flat_map (fun pt => dinidlGaussTheta.NDIntegrand 1 1 pt (map Fin negative_weight) 1)
      [[Fin 1]; [Fin 0]]
  /\ infoGauss.NDIntegrand 1 2 (concat [[Fin 1]; [Fin 0]]) (map Fin negative_weight) 1
     = flat_map (fun pt => infoGauss.NDIntegrand 1 1 pt (map Fin negative_weight) 1)
         [[Fin 1]; [Fin 0]].
Proof.
  apply (@NDIntegrand_pointwise xreal xreal_ops 1 [[Fin 1%R]; [Fin 0%R]]
           (map Fin negative_weight) 1).
  repeat constructor.
Defined.

(** ** Symbolic execution of the two entry points *)

Section Unfold.
Context {D : Type} {ops : DoubleOps D}.
Variable hcub : cubature D.
Variable junk : nat -> D.
Local Open Scope double_scope.

Lemma diTheta_unfold (th : D) (par : list D) :
  let p := rd par 0 in
  let rho1 := rd par 1 in
  let rho2 := rd par 2 in
  let a1 := lit 1.0 / (lit 1.0 - rho1 * rho1) in
  let a2 := lit 1.0 / (lit 1.0 - rho2 * rho2) in
  let q := lit 1 - p in
  let square :=
    cubature_call dinidlGaussTheta.NDIntegrand
      [p; q; p * dsqrt a1 / (lit 2.0 * M_PI); q * dsqrt a2 / (lit 2.0 * M_PI);
       a1; a2; rho1 * a1; rho2 * a2; th; th] 2 in
  let segment :=
    cubature_call dinidlGaussTheta.NDIntegrand
      [q; p; q / dsqrt (lit 2.0 * M_PI); p / dsqrt (lit 2.0 * M_PI);
       lit 1; lit 1; lit 0; lit 0; th; th] 1 in
  dinidlGaussTheta.diTheta hcub junk th par
  = (fst (hcub segment) + fst (hcub square), [square; segment]).
Proof.
  intros. unfold dinidlGaussTheta.diTheta, hcubature_v, bind, ret. cbn.
  subst square segment a1 a2 q p rho1 rho2. unfold cubature_call.
  destruct (hcub _) as [v2 e2]. cbn.
  destruct (hcub _) as [v1 e1]. reflexivity.
Qed.

Lemma parnum_max (m n : Z) : (if (m <? n)%Z then n else m) = Z.max m n.
Proof. destruct (Z.ltb_spec m n); lia. Qed.

Lemma mexFunction_unfold_1D (m n : Z) (par : list D) :
  let p := rd par 0 in
  let q := lit 1 - p in
  let segment :=
    cubature_call infoGauss.NDIntegrand
      [p; q; p / dsqrt (lit 2.0 * M_PI); q / dsqrt (lit 2.0 * M_PI);
       lit 1.0; lit 1.0; lit 0; lit 0] 1 in
  Z.max m n = 1%Z ->
  infoGauss.mexFunction hcub junk (m, n) par
  = (fst (hcub segment) + ((- p) * dlog p - q * dlog q), [segment]).
Proof.
  intros p q segment Hmax. unfold infoGauss.mexFunction.
  cbn [fst snd]. rewrite parnum_max, Hmax. cbn.
  subst segment q p. unfold cubature_call.
  destruct (hcub _) as [v e]. reflexivity.
Qed.

Lemma mexFunction_unfold_2D (m n : Z) (par : list D) :
  let p := rd par 0 in
  let rho1 := rd par 1 in
  let rho2 := rd par 2 in
  let a1 := lit 1.0 / (lit 1.0 - rho1 * rho1) in
  let a2 := lit 1.0 / (lit 1.0 - rho2 * rho2) in
  let q := lit 1 - p in
  let square :=
    cubature_call infoGauss.NDIntegrand
      [p; q; p * dsqrt a1 / (lit 2.0 * M_PI); q * dsqrt a2 / (lit 2.0 * M_PI);
       a1; a2; rho1 * a1; rho2 * a2] 2 in
  Z.max m n <> 1%Z ->
  infoGauss.mexFunction hcub junk (m, n) par
  = (fst (hcub square) + ((- p) * dlog p - q * dlog q), [square]).
Proof.
  intros p rho1 rho2 a1 a2 q square Hmax. unfold infoGauss.mexFunction.
  cbn [fst snd]. rewrite parnum_max.
  destruct (Z.eqb_spec (Z.max m n) 1) as [E|_]; [contradiction|]. cbn.
  subst square a1 a2 q p rho1 rho2. unfold cubature_call.
  destruct (hcub _) as [v e]. reflexivity.
Qed.

End Unfold.

(** C4.  For every arithmetic, threshold and parameter array, [diTheta]
    makes two calls to the integrator and returns the sum of their two
    estimates, the error estimates being dropped: first the integral over
    [-5,5]x[-5,5] of the divergence integrand with the correlated coefficients
    ([a_k = 1/(1-rho_k^2)], [w_k = p_k sqrt(a_k)/(2 pi)], [b_k = rho_k a_k]) and
    the reference scale [th] for both classes; then the integral over [-5,5]
    of the same integrand with the two mixing weights exchanged, [a_k = 1],
    [b_k = 0], [w_k = p_k/sqrt(2 pi)] and the same reference scale. *)
Theorem diTheta_two_integrals :
  forall (D : Type) (ops : DoubleOps D) (hcub : cubature D) (junk : nat -> D)
         (th : D) (par : list D),
    let p := rd par 0 in
    let rho1 := rd par 1 in
    let rho2 := rd par 2 in
    let a1 := (lit 1.0 / (lit 1.0 - rho1 * rho1))%D in
    let a2 := (lit 1.0 / (lit 1.0 - rho2 * rho2))%D in
    let q := (lit 1 - p)%D in
    let square :=
      HcubCall 1 dinidlGaussTheta.NDIntegrand
        [p; q;
         p * dsqrt a1 / (lit 2.0 * M_PI); q * dsqrt a2 / (lit 2.0 * M_PI);
         a1; a2; rho1 * a1; rho2 * a2; th; th]%D
        2 [lit (-5); lit (-5)] [lit 5; lit 5] 1000 (lit 1E-6) (lit 1E-3)
        ERROR_INDIVIDUAL in
    let segment :=
      HcubCall 1 dinidlGaussTheta.NDIntegrand
        [q; p;
         q / dsqrt (lit 2.0 * M_PI); p / dsqrt (lit 2.0 * M_PI);
         lit 1; lit 1; lit 0; lit 0; th; th]%D
        1 [lit (-5); lit (-5)] [lit 5; lit 5] 1000 (lit 1E-6) (lit 1E-3)
        ERROR_INDIVIDUAL in
    dinidlGaussTheta.diTheta hcub junk th par
    = ((fst (hcub segment) + fst (hcub square))%D, [square; segment]).
Proof. intros. apply diTheta_unfold. Qed.

(** The exchange of the two weights, computed in binary64 at [p = 0.25]. *)
Example binary64_exchanged_weights :
  forall (libm_exp libm_log : float -> float) (hcub : cubature float)
         (junk : nat -> float) (th : float),
    map (fun c => (@rd float (float_ops libm_exp libm_log) (c_fdata c) 0,
                   @rd float (float_ops libm_exp libm_log) (c_fdata c) 1))
      (calls (@dinidlGaussTheta.diTheta float (float_ops libm_exp libm_log) hcub junk th
                [0.25%float; 0%float; 0%float]))
    = [(0.25%float, 0.75%float); (0.75%float, 0.25%float)].
Proof. intros. rewrite diTheta_unfold. vm_compute. reflexivity. Qed.

(** ** The refinement loop of dinidlGaussTheta.c *)

Section RefinementLoop.
Context {D : Type} {ops : DoubleOps D}.

(** The body never writes [iter]. *)
Lemma refine_body_iter (gsl : fminimizer D) (r : dinidlGaussTheta.refinement gsl) :
  dinidlGaussTheta.iter (value (dinidlGaussTheta.refine_body r)) = dinidlGaussTheta.iter r.
Proof.
  unfold dinidlGaussTheta.refine_body, bind, ret, value.
  destruct (fmin_iterate gsl _) as [s' l]. reflexivity.
Qed.

(** With [iter = 0] the test is the interval test alone. *)
Lemma refine_test_zero (gsl : fminimizer D) s a b :
  dinidlGaussTheta.refine_test (dinidlGaussTheta.Refinement gsl s a b 0)
  = (min_test_interval gsl a b (lit 1E-6) (lit 1E-3) =? GSL_CONTINUE)%Z.
Proof. unfold dinidlGaussTheta.refine_test. simpl. apply andb_true_r. Qed.

Lemma never_converges_runs (fuel : nat) : forall a b,
  value (dinidlGaussTheta.refine_loop fuel
           (dinidlGaussTheta.Refinement (never_converges (D:=D)) (a, b) a b 0))
  = (fuel, None).
Proof.
  induction fuel as [|k IH]; intros a b; [reflexivity|].
  cbn [dinidlGaussTheta.refine_loop]. rewrite value_bind.
  cbn. rewrite value_bind, (IH a b). reflexivity.
Qed.

End RefinementLoop.

(** C1.  The refinement loop has no effective cap on its iterations.
    For every arithmetic and minimiser, the body never changes [iter], and
    with [iter = 0], as the loop is entered, the test of line 223 is the
    interval test alone: the loop is left only when that test stops answering
    [GSL_CONTINUE].  With a minimiser that never reports convergence the body
    is executed as often as the fuel allows and the loop is not left; and in
    binary64, with a minimiser that needs 1500 refinements, the loop executes
    its body 1500 times before it is left, with [iter] still 0. *)
Theorem refine_loop_cap_not_enforced :
  forall (D : Type) (ops : DoubleOps D),
    (forall (gsl : fminimizer D) (r : dinidlGaussTheta.refinement gsl),
        dinidlGaussTheta.iter (value (dinidlGaussTheta.refine_body r))
        = dinidlGaussTheta.iter r)
    /\ (forall (gsl : fminimizer D) (s : fmin_state gsl) (a b : D),
           dinidlGaussTheta.refine_test (dinidlGaussTheta.Refinement gsl s a b 0)
           = (min_test_interval gsl a b (lit 1E-6) (lit 1E-3) =? GSL_CONTINUE)%Z)
    /\ (forall (fuel : nat) (a b : D),
           value (dinidlGaussTheta.refine_loop fuel
                    (dinidlGaussTheta.Refinement (never_converges (D:=D)) (a, b) a b 0))
           = (fuel, None))
    /\ (forall libm_exp libm_log : float -> float,
           value (@dinidlGaussTheta.refine_loop float (float_ops libm_exp libm_log)
                    (@needs float (float_ops libm_exp libm_log) 1500) 2000
                    (dinidlGaussTheta.Refinement
                       (@needs float (float_ops libm_exp libm_log) 1500)
                       1500%nat (-0.5)%float 1.5%float 0))
           = (1500%nat,
              Some (dinidlGaussTheta.Refinement
                      (@needs float (float_ops libm_exp libm_log) 1500)
                      0%nat 0%float 0%float 0))).
Proof.
  intros D ops. split; [|split; [|split]].
  - apply refine_body_iter.
  - apply refine_test_zero.
  - intros. apply never_converges_runs.
  - intros. vm_compute. reflexivity.
Qed.

(** ** Computing with idealised doubles *)

(** A decimal literal against its value. *)
Ltac q2r := unfold Q2R; simpl; lra.

Section Xreal.
Local Open Scope R_scope.

Lemma Rsgn_pos r : 0 < r -> Rsgn r = Gt.
Proof.
  intros Hr. unfold Rsgn. destruct (total_order_T r 0) as [[H|H]|H]; auto; lra.
Qed.

Lemma Rsgn_neg r : r < 0 -> Rsgn r = Lt.
Proof.
  intros Hr. unfold Rsgn. destruct (total_order_T r 0) as [[H|H]|H]; auto; lra.
Qed.

Lemma Rsgn_zero : Rsgn 0 = Eq.
Proof.
  unfold Rsgn. destruct (total_order_T 0 0) as [[H|H]|H]; auto; lra.
Qed.

Lemma xdiv_fin x y : y <> 0 -> xdiv (Fin x) (Fin y) = Fin (x / y).
Proof.
  intros Hy. simpl. unfold Rsgn.
  destruct (total_order_T y 0) as [[H|H]|H]; auto; lra.
Qed.

Lemma xlog_fin r : 0 < r -> xlog (Fin r) = Fin (ln r).
Proof. intros Hr. simpl. now rewrite Rsgn_pos. Qed.

Lemma xlog_neg r : r < 0 -> xlog (Fin r) = NaN.
Proof. intros Hr. simpl. now rewrite Rsgn_neg. Qed.

Lemma xsqrt_fin r : 0 <= r -> xsqrt (Fin r) = Fin (sqrt r).
Proof.
  intros Hr. simpl. unfold Rsgn.
  destruct (total_order_T r 0) as [[H|H]|H]; auto; lra.
Qed.

Lemma xlt_fin_true x y : x < y -> xlt (Fin x) (Fin y) = true.
Proof. intros H. simpl. destruct (Rlt_dec x y); auto; lra. Qed.

Lemma xlt_fin_false x y : y <= x -> xlt (Fin x) (Fin y) = false.
Proof. intros H. simpl. destruct (Rlt_dec x y); auto; lra. Qed.

Lemma rd_fin (cs : list R) (i : nat) : rd (map Fin cs) i = Fin (Spec.coef cs i).
Proof.
  unfold rd, Spec.coef. simpl lit.
  replace (Q2R 0) with 0 by q2r.
  apply (map_nth Fin).
Qed.

End Xreal.

(** ** The densities on finite coefficients and points *)

Section Densities.
Local Open Scope R_scope.

Lemma lit_fin (q : Q) : lit q = Fin (Q2R q).
Proof. reflexivity. Qed.

Lemma di_mu_fin k : (k < 2)%nat -> rd dinidlGaussTheta.mu k = Fin (Spec.mu k).
Proof.
  intros Hk. destruct k as [|[|k]]; [| |lia]; cbn; f_equal; q2r.
Qed.

Lemma info_mu_fin k : (k < 2)%nat -> rd infoGauss.mu k = Fin (Spec.mu k).
Proof.
  intros Hk. destruct k as [|[|k]]; [| |lia]; cbn; f_equal; q2r.
Qed.

Lemma di_center_fin k : forall pt p s,
  dinidlGaussTheta.center (length pt) (map Fin pt) (Fin (Spec.mu k)) (Fin p) (Fin s)
  = (Fin (p * Spec.prod k pt), Fin (s + Spec.sumsq k pt)).
Proof.
  induction pt as [|h t IH]; intros p s; simpl.
  - f_equal; f_equal; ring.
  - rewrite IH. f_equal; f_equal; ring.
Qed.

Lemma info_center_fin k : forall pt p s,
  infoGauss.center (length pt) (map Fin pt) (Fin (Spec.mu k)) (Fin p) (Fin s)
  = (Fin (p * Spec.prod k pt), Fin (s + Spec.sumsq k pt)).
Proof.
  induction pt as [|h t IH]; intros p s; simpl.
  - f_equal; f_equal; ring.
  - rewrite IH. f_equal; f_equal; ring.
Qed.

Lemma di_densities_fin (cs pt : list R) (k : nat) : (k < 2)%nat ->
  dinidlGaussTheta.densities (length pt) (map Fin pt) (map Fin cs) k
  = (Fin (Spec.psx cs k pt), Fin (Spec.pisx cs k pt)).
Proof.
  intros Hk. unfold dinidlGaussTheta.densities.
  rewrite (di_mu_fin Hk), !lit_fin, di_center_fin, !rd_fin. cbn.
  unfold Spec.psx, Spec.pisx. rewrite Nat.add_0_r.
  f_equal; f_equal; f_equal; f_equal; unfold Q2R; simpl; field.
Qed.

Lemma info_density_fin (cs pt : list R) (k : nat) : (k < 2)%nat ->
  infoGauss.density (length pt) (map Fin pt) (map Fin cs) k = Fin (Spec.psx cs k pt).
Proof.
  intros Hk. unfold infoGauss.density.
  rewrite (info_mu_fin Hk), !lit_fin, info_center_fin, !rd_fin. cbn.
  unfold Spec.psx.
  f_equal; f_equal; f_equal; unfold Q2R; simpl; field.
Qed.

End Densities.

(** ** The integrands where every density is positive *)

Section Positive.
Local Open Scope R_scope.

Lemma Q2R_zero : Q2R 0 = 0.
Proof. q2r. Qed.

Lemma xterm_fin (acc x y : R) : 0 < x -> 0 < y ->
  xadd (Fin acc) (xmul (Fin x) (xlog (xdiv (Fin x) (Fin y))))
  = Fin (acc + x * ln (x / y)).
Proof.
  intros Hx Hy. rewrite xdiv_fin by lra.
  rewrite xlog_fin by (apply Rdiv_lt_0_compat; assumption). reflexivity.
Qed.

Lemma di_class_loop_fin (cs pt : list R) :
  0 < Spec.psx cs 0 pt -> 0 < Spec.psx cs 1 pt ->
  0 < Spec.pisx cs 0 pt -> 0 < Spec.pisx cs 1 pt ->
  dinidlGaussTheta.class_loop (length pt) (map Fin pt) (map Fin cs) 2 0
    (dinidlGaussTheta.Acc (lit 0) (lit 0) (lit 0))
  = dinidlGaussTheta.Acc
      (Fin (Spec.psx cs 0 pt * ln (Spec.psx cs 0 pt / Spec.pisx cs 0 pt)
            + Spec.psx cs 1 pt * ln (Spec.psx cs 1 pt / Spec.pisx cs 1 pt)))
      (Fin (Spec.psx cs 0 pt + Spec.psx cs 1 pt))
      (Fin (Spec.pisx cs 0 pt + Spec.pisx cs 1 pt)).
Proof.
  intros H0 H1 G0 G1.
  cbn [dinidlGaussTheta.class_loop]. unfold dinidlGaussTheta.class_step.
  rewrite !di_densities_fin by lia. rewrite !lit_fin, Q2R_zero.
  cbn [dinidlGaussTheta.dinow dinidlGaussTheta.px dinidlGaussTheta.pix].
  cbn [dadd dsub dmul ddiv dlog isfinite xreal_ops].
  rewrite (xterm_fin 0 H0 G0). cbn [xfinite].
  rewrite xterm_fin by assumption. cbn [xfinite xadd].
  now rewrite !Rplus_0_l.
Qed.

Lemma di_point_fin (cs pt : list R) :
  0 < Spec.psx cs 0 pt -> 0 < Spec.psx cs 1 pt ->
  0 < Spec.pisx cs 0 pt -> 0 < Spec.pisx cs 1 pt ->
  dinidlGaussTheta.point (length pt) (map Fin pt) (map Fin cs)
  = Fin (Spec.divergence cs pt).
Proof.
  intros H0 H1 G0 G1. unfold dinidlGaussTheta.point.
  rewrite di_class_loop_fin by assumption.
  cbn [dinidlGaussTheta.dinow dinidlGaussTheta.px dinidlGaussTheta.pix].
  cbn [dsub dmul ddiv dlog isfinite xreal_ops xfinite].
  rewrite xdiv_fin by lra.
  rewrite xlog_fin by (apply Rdiv_lt_0_compat; lra).
  reflexivity.
Qed.

Lemma info_class_loop_fin (cs pt : list R) :
  0 < Spec.psx cs 0 pt -> 0 < Spec.psx cs 1 pt ->
  infoGauss.class_loop (length pt) (map Fin pt) (map Fin cs) 2 0
    (infoGauss.Acc (lit 0) (lit 0))
  = infoGauss.Acc
      (Fin (Spec.psx cs 0 pt * ln (Spec.psx cs 0 pt)
            + Spec.psx cs 1 pt * ln (Spec.psx cs 1 pt)))
      (Fin (Spec.psx cs 0 pt + Spec.psx cs 1 pt)).
Proof.
  intros H0 H1.
  cbn [infoGauss.class_loop]. unfold infoGauss.class_step.
  rewrite !info_density_fin by lia. rewrite !lit_fin, Q2R_zero.
  cbn [infoGauss.infonow infoGauss.px].
  cbn [dadd dsub dmul ddiv dlog isfinite xreal_ops].
  rewrite !xlog_fin by assumption. cbn [xmul xadd xfinite].
  now rewrite !Rplus_0_l.
Qed.

Lemma info_point_fin (cs pt : list R) :
  0 < Spec.psx cs 0 pt -> 0 < Spec.psx cs 1 pt ->
  infoGauss.point (length pt) (map Fin pt) (map Fin cs) = Fin (Spec.entropy cs pt).
Proof.
  intros H0 H1. unfold infoGauss.point.
  rewrite info_class_loop_fin by assumption.
  cbn [infoGauss.infonow infoGauss.px].
  cbn [dsub dmul dlog isfinite xreal_ops xfinite].
  rewrite xlog_fin by lra. reflexivity.
Qed.

Lemma psx_pos (cs pt : list R) (k : nat) :
  0 < Spec.coef cs (k + 2) -> 0 < Spec.psx cs k pt.
Proof. intros H. unfold Spec.psx. apply Rmult_lt_0_compat; [assumption|apply exp_pos]. Qed.

Lemma pisx_pos (cs pt : list R) (k : nat) :
  0 < Spec.coef cs k -> 0 < Spec.pisx cs k pt.
Proof. intros H. unfold Spec.pisx. apply Rmult_lt_0_compat; [assumption|apply exp_pos]. Qed.

End Positive.

(** ** The coefficient arrays the two programs build *)

Section CoefficientArrays.
Local Open Scope R_scope.

Lemma PI2_pos : 0 < 2 * PI.
Proof. pose proof PI_RGT_0. lra. Qed.

Lemma a_pos rho : -1 < rho < 1 -> 0 < Coefficients.a rho.
Proof.
  intros H. unfold Coefficients.a. apply Rdiv_lt_0_compat; nra.
Qed.

Lemma lit_one : lit 1 = Fin 1.
Proof. cbn. f_equal. q2r. Qed.

Lemma lit_one' : lit 1.0 = Fin 1.
Proof. cbn. f_equal. q2r. Qed.

Lemma lit_two : lit 2.0 = Fin 2.
Proof. cbn. f_equal. q2r. Qed.

Lemma lit_zero : lit 0 = Fin 0.
Proof. cbn. f_equal. q2r. Qed.

Lemma lit_five : lit 5 = Fin 5.
Proof. cbn. f_equal. q2r. Qed.

Lemma lit_minus_five : lit (-5) = Fin (-5).
Proof. cbn. f_equal. q2r. Qed.

Lemma a_fin rho : -1 < rho < 1 ->
  (lit 1.0 / (lit 1.0 - Fin rho * Fin rho))%D = Fin (Coefficients.a rho).
Proof.
  intros H. rewrite lit_one'. cbn [dmul dsub ddiv xreal_ops xmul xsub].
  rewrite xdiv_fin by nra. reflexivity.
Qed.

Lemma w2_fin (p a : R) : 0 < a ->
  (Fin p * dsqrt (Fin a) / (lit 2.0 * M_PI))%D = Fin (p * sqrt a / (2 * PI)).
Proof.
  intros Ha. rewrite lit_two. cbn [dmul ddiv dsqrt M_PI xreal_ops].
  rewrite xsqrt_fin by lra. cbn [xmul].
  rewrite xdiv_fin by (pose proof PI2_pos; lra). reflexivity.
Qed.

Lemma w1_fin (p : R) :
  (Fin p / dsqrt (lit 2.0 * M_PI))%D = Fin (p / sqrt (2 * PI)).
Proof.
  rewrite lit_two. cbn [dmul ddiv dsqrt M_PI xreal_ops xmul].
  pose proof PI2_pos as HPI.
  rewrite xsqrt_fin by lra.
  rewrite xdiv_fin; [reflexivity|].
  pose proof (sqrt_lt_R0 _ HPI). lra.
Qed.

Lemma one_minus_fin (p : R) : (lit 1 - Fin p)%D = Fin (1 - p).
Proof. now rewrite lit_one. Qed.

End CoefficientArrays.

(** ** The entry points on finite mixture parameters *)

Section FiniteParameters.
Local Open Scope R_scope.
Variable hcub : cubature xreal.
Variable junk : nat -> xreal.

Lemma diTheta_fin (p rho1 rho2 th : R) :
  -1 < rho1 < 1 -> -1 < rho2 < 1 ->
  dinidlGaussTheta.diTheta hcub junk (Fin th) [Fin p; Fin rho1; Fin rho2]
  = (xadd
       (fst (hcub (cubature_call dinidlGaussTheta.NDIntegrand
                     (map Fin (Coefficients.marginal (1 - p) p ++ [th; th])) 1)))
       (fst (hcub (cubature_call dinidlGaussTheta.NDIntegrand
                     (map Fin (Coefficients.correlated p (1 - p) rho1 rho2 ++ [th; th])) 2))),
     [cubature_call dinidlGaussTheta.NDIntegrand
        (map Fin (Coefficients.correlated p (1 - p) rho1 rho2 ++ [th; th])) 2;
      cubature_call dinidlGaussTheta.NDIntegrand
        (map Fin (Coefficients.marginal (1 - p) p ++ [th; th])) 1]).
Proof.
  intros H1 H2. rewrite diTheta_unfold. cbv zeta. cbn [rd nth].
  rewrite !a_fin, !one_minus_fin by assumption.
  rewrite !w2_fin by (apply a_pos; assumption).
  rewrite !w1_fin, lit_one, lit_zero. reflexivity.
Qed.

Lemma mexFunction_fin (m n : Z) (p rho1 rho2 : R) :
  -1 < rho1 < 1 -> -1 < rho2 < 1 ->
  calls (infoGauss.mexFunction hcub junk (m, n) [Fin p; Fin rho1; Fin rho2])
  = [if (Z.max m n =? 1)%Z
     then cubature_call infoGauss.NDIntegrand
            (map Fin (Coefficients.marginal p (1 - p))) 1
     else cubature_call infoGauss.NDIntegrand
            (map Fin (Coefficients.correlated p (1 - p) rho1 rho2)) 2].
Proof.
  intros H1 H2. destruct (Z.eqb_spec (Z.max m n) 1) as [E|E].
  - rewrite mexFunction_unfold_1D by assumption. cbv zeta. cbn [rd nth calls snd].
    rewrite !one_minus_fin, !w1_fin, lit_one', lit_zero. reflexivity.
  - rewrite mexFunction_unfold_2D by assumption. cbv zeta. cbn [rd nth calls snd].
    rewrite !a_fin, !one_minus_fin by assumption.
    rewrite !w2_fin by (apply a_pos; assumption). reflexivity.
Qed.

Lemma sqrt_2PI_pos : 0 < sqrt (2 * PI).
Proof. apply sqrt_lt_R0, PI2_pos. Qed.

Lemma correlated_weights_pos (p1 p2 rho1 rho2 : R) (ths : list R) (k : nat) :
  0 < p1 -> 0 < p2 -> -1 < rho1 < 1 -> -1 < rho2 < 1 -> (k < 2)%nat ->
  0 < Spec.coef (Coefficients.correlated p1 p2 rho1 rho2 ++ ths) k
  /\ 0 < Spec.coef (Coefficients.correlated p1 p2 rho1 rho2 ++ ths) (k + 2).
Proof.
  intros Hp1 Hp2 H1 H2 Hk.
  pose proof PI2_pos as HPI.
  pose proof (sqrt_lt_R0 _ (a_pos H1)) as Hs1.
  pose proof (sqrt_lt_R0 _ (a_pos H2)) as Hs2.
  destruct k as [|[|k]]; [| |lia]; cbn; (split; [assumption|]);
    apply Rdiv_lt_0_compat; try assumption; apply Rmult_lt_0_compat; assumption.
Qed.

Lemma marginal_weights_pos (p1 p2 : R) (ths : list R) (k : nat) :
  0 < p1 -> 0 < p2 -> (k < 2)%nat ->
  0 < Spec.coef (Coefficients.marginal p1 p2 ++ ths) k
  /\ 0 < Spec.coef (Coefficients.marginal p1 p2 ++ ths) (k + 2).
Proof.
  intros Hp1 Hp2 Hk. pose proof sqrt_2PI_pos as Hs.
  destruct k as [|[|k]]; [| |lia]; cbn; (split; [assumption|]);
    apply Rdiv_lt_0_compat; assumption.
Qed.

End FiniteParameters.

(** ** Claims on the coefficients and the densities *)

Section Claims_coefficients.
Local Open Scope R_scope.

Lemma PI_gt_3 : 3 < PI.
Proof. pose proof PI2_3_2. lra. Qed.

(** C5, as the specification states it, fails: in the one-dimensional
    integral of [diTheta] at [p = 1/4] the weight [w_1] is
    [(1 - p) / sqrt(2 pi)], not [p / sqrt(2 pi)]. *)
Lemma coefficient_derivation_counterexample :
  exists c : hcub_call xreal,
    nth_error
      (calls (dinidlGaussTheta.diTheta zero_cubature nan_junk (Fin 1)
                [Fin (1 / 4); Fin 0; Fin 0])) 1 = Some c
    /\ c_dim c = 1%nat
    /\ rd (c_fdata c) 4 = Fin 1
    /\ rd (c_fdata c) 6 = Fin 0
    /\ rd (c_fdata c) 2 <> Fin ((1 / 4) / sqrt (2 * PI)).
Proof.
  rewrite diTheta_fin by lra. eexists. split; [reflexivity|].
  cbn. repeat split.
  intros H. injection H as H.
  pose proof sqrt_2PI_pos as Hs.
  apply (f_equal (fun x => x * sqrt (2 * PI))) in H.
  field_simplify in H; lra.
Qed.

(** C5, amended.  For mixture parameters with [|rho_k| < 1], the coefficient
    arrays handed to the integrator are exactly: in the two-dimensional case
    (of both programs) [a_k = 1/(1-rho_k^2)], [w_k = p_k sqrt(a_k)/(2 pi)],
    [b_k = rho_k a_k] with [p_1 = p], [p_2 = 1-p]; in the one-dimensional
    case [a_k = 1], [b_k = 0], [w_k = p_k/sqrt(2 pi)], with [p_1 = p],
    [p_2 = 1-p] in [infoGauss.mexFunction] and with the two weights
    exchanged, [p_1 = 1-p], [p_2 = p], in [diTheta]. *)
Theorem coefficient_derivation :
  forall (hcub : cubature xreal) (junk : nat -> xreal) (p rho1 rho2 th : R) (m n : Z),
    -1 < rho1 < 1 -> -1 < rho2 < 1 ->
    map (@c_fdata xreal)
      (calls (dinidlGaussTheta.diTheta hcub junk (Fin th) [Fin p; Fin rho1; Fin rho2]))
    = [map Fin (Coefficients.correlated p (1 - p) rho1 rho2 ++ [th; th]);
       map Fin (Coefficients.marginal (1 - p) p ++ [th; th])]
    /\ map (@c_fdata xreal)
         (calls (infoGauss.mexFunction hcub junk (m, n) [Fin p; Fin rho1; Fin rho2]))
       = [map Fin (if (Z.max m n =? 1)%Z
                   then Coefficients.marginal p (1 - p)
                   else Coefficients.correlated p (1 - p) rho1 rho2)].
Proof.
  intros hcub junk p rho1 rho2 th m n H1 H2. split.
  - now rewrite diTheta_fin.
  - rewrite mexFunction_fin by assumption. now destruct (Z.max m n =? 1)%Z.
Qed.

Lemma coefficient_derivation_witness :
  map (@c_fdata xreal)
    (calls (dinidlGaussTheta.diTheta zero_cubature nan_junk (Fin 1)
              [Fin (1 / 4); Fin (1 / 2); Fin 0]))
  = [map Fin (Coefficients.correlated (1 / 4) (1 - 1 / 4) (1 / 2) 0 ++ [1; 1]);
     map Fin (Coefficients.marginal (1 - 1 / 4) (1 / 4) ++ [1; 1])]
  /\ map (@c_fdata xreal)
       (calls (infoGauss.mexFunction zero_cubature nan_junk (1%Z, 3%Z)
                 [Fin (1 / 4); Fin (1 / 2); Fin 0]))
     = [map Fin (Coefficients.correlated (1 / 4) (1 - 1 / 4) (1 / 2) 0)].
Proof.
  apply (coefficient_derivation zero_cubature nan_junk (1 / 4) 1 1 3); lra.
Defined.

End Claims_coefficients.

Section Claims_densities.
Local Open Scope R_scope.

(** C6, as the specification states it, fails: in the two-dimensional
    integral of [diTheta] at [p = 1/2], [rho1 = rho2 = 0], [theta = 1] and the
    point (-1,-1), where [S = 0], the reference density of the first class is
    [1/2], the mixing weight, not [w_1 exp(-0.5 theta S) = w_1 = 1/(4 pi)]. *)
Lemma reference_density_counterexample :
  exists (c : hcub_call xreal) (w pisx : R),
    nth_error
      (calls (dinidlGaussTheta.diTheta zero_cubature nan_junk (Fin 1)
                [Fin (1 / 2); Fin 0; Fin 0])) 0 = Some c
    /\ rd (c_fdata c) 2 = Fin w
    /\ snd (dinidlGaussTheta.densities 2 [Fin (-1); Fin (-1)] (c_fdata c) 0) = Fin pisx
    /\ pisx <> w * exp (- 0.5 * 1 * Spec.sumsq 0 [-1; -1]).
Proof.
  rewrite diTheta_fin by lra. eexists. exists (1 / 2 * sqrt (Coefficients.a 0) / (2 * PI)).
  eexists. split; [reflexivity|]. split; [reflexivity|].
  cbn [c_fdata cubature_call]. split.
  - change 2%nat with (length [-1; -1]).
    change [Fin (-1); Fin (-1)] with (map Fin [-1; -1]).
    rewrite di_densities_fin by lia. reflexivity.
  - unfold Spec.pisx, Spec.sumsq, Spec.coef, Coefficients.a. cbn.
    replace (1 / (1 - 0 * 0)) with 1 by field. rewrite sqrt_1.
    replace (-0.5 * 1 * ((-1 + 1) * (-1 + 1) + ((-1 + 1) * (-1 + 1) + 0))) with 0 by field.
    rewrite exp_0. pose proof PI_gt_3 as HPI. intros H.
    assert (E : 1 / 2 * 1 / (2 * PI) * 1 * (2 * PI) = 1 / 2) by (field; lra).
    rewrite <- H in E. lra.
Qed.

(** C6, amended.  On finite coefficients and a finite point, for each class
    [k] the density of the model is [psx_k = w_k exp(-0.5 a_k S + b_k P)] with
    [w_k = params[k+2]], and the reference density is
    [pisx_k = q_k exp(-0.5 theta_k S)] with [q_k = params[k]], the mixing
    weight of the class (not [w_k]) and [theta_k = params[k+8]]: besides the
    scale and the missing cross term, the two differ in their weight. *)
Theorem reference_density :
  forall (cs pt : list R) (k : nat),
    (k < 2)%nat ->
    dinidlGaussTheta.densities (length pt) (map Fin pt) (map Fin cs) k
    = (Fin (Spec.coef cs (k + 2)
            * exp (- 0.5 * Spec.coef cs (k + 4) * Spec.sumsq k pt
                   + Spec.coef cs (k + 6) * Spec.prod k pt)),
       Fin (Spec.coef cs k * exp (- 0.5 * Spec.coef cs (k + 8) * Spec.sumsq k pt))).
Proof. intros cs pt k Hk. now apply di_densities_fin. Qed.

Lemma reference_density_witness :
  dinidlGaussTheta.densities 2 (map Fin [0; 0])
    (map Fin (Coefficients.correlated (1 / 2) (1 / 2) 0 0 ++ [1; 1])) 1
  = (Fin (1 / 2 * sqrt (Coefficients.a 0) / (2 * PI)
          * exp (- 0.5 * Coefficients.a 0 * Spec.sumsq 1 [0; 0]
                 + 0 * Coefficients.a 0 * Spec.prod 1 [0; 0])),
     Fin (1 / 2 * exp (- 0.5 * 1 * Spec.sumsq 1 [0; 0]))).
Proof.
  apply (@reference_density
           (Coefficients.correlated (1 / 2) (1 / 2) 0 0 ++ [1; 1]) [0; 0] 1%nat).
  lia.
Defined.

(** C10.  For [0 < p < 1], [|rho1| < 1], [|rho2| < 1] and a finite [theta],
    with exact arithmetic on finite values: in every integral the two
    programs ask for, at every finite sample point, the densities [psx_k]
    and [pisx_k] of both classes are finite and strictly positive, the loop
    over the classes runs through both classes and ends with finite sums, and
    the value the integrand returns for the point is the unguarded sum
    [sum_k psx_k log(psx_k/pisx_k) - px log(px/pix)] (divergence) or
    [sum_k psx_k log(psx_k) - px log(px)] (entropy). *)
Theorem densities_positive :
  forall (hcub : cubature xreal) (junk : nat -> xreal) (p rho1 rho2 th : R) (m n : Z),
    0 < p < 1 -> -1 < rho1 < 1 -> -1 < rho2 < 1 ->
    (forall c : hcub_call xreal,
        In c (calls (dinidlGaussTheta.diTheta hcub junk (Fin th)
                       [Fin p; Fin rho1; Fin rho2])) ->
        exists cs : list R,
          c_fdata c = map Fin cs
          /\ forall pt : list R,
              (forall k : nat, (k < 2)%nat ->
                 0 < Spec.psx cs k pt /\ 0 < Spec.pisx cs k pt
                 /\ dinidlGaussTheta.densities (length pt) (map Fin pt) (c_fdata c) k
                    = (Fin (Spec.psx cs k pt), Fin (Spec.pisx cs k pt)))
              /\ dinidlGaussTheta.class_loop (length pt) (map Fin pt) (c_fdata c) 2 0
                   (dinidlGaussTheta.Acc (lit 0) (lit 0) (lit 0))
                 = dinidlGaussTheta.Acc
                     (Fin (Spec.psx cs 0 pt * ln (Spec.psx cs 0 pt / Spec.pisx cs 0 pt)
                           + Spec.psx cs 1 pt * ln (Spec.psx cs 1 pt / Spec.pisx cs 1 pt)))
                     (Fin (Spec.psx cs 0 pt + Spec.psx cs 1 pt))
                     (Fin (Spec.pisx cs 0 pt + Spec.pisx cs 1 pt))
              /\ c_f c (length pt) 1%nat (map Fin pt) (c_fdata c) 1%nat
                 = [Fin (Spec.divergence cs pt)])
    /\ (forall c : hcub_call xreal,
           In c (calls (infoGauss.mexFunction hcub junk (m, n)
                          [Fin p; Fin rho1; Fin rho2])) ->
           exists cs : list R,
             c_fdata c = map Fin cs
             /\ forall pt : list R,
                 (forall k : nat, (k < 2)%nat ->
                    0 < Spec.psx cs k pt
                    /\ infoGauss.density (length pt) (map Fin pt) (c_fdata c) k
                       = Fin (Spec.psx cs k pt))
                 /\ infoGauss.class_loop (length pt) (map Fin pt) (c_fdata c) 2 0
                      (infoGauss.Acc (lit 0) (lit 0))
                    = infoGauss.Acc
                        (Fin (Spec.psx cs 0 pt * ln (Spec.psx cs 0 pt)
                              + Spec.psx cs 1 pt * ln (Spec.psx cs 1 pt)))
                        (Fin (Spec.psx cs 0 pt + Spec.psx cs 1 pt))
                 /\ c_f c (length pt) 1%nat (map Fin pt) (c_fdata c) 1%nat
                    = [Fin (Spec.entropy cs pt)]).
Proof.
  intros hcub junk p rho1 rho2 th m n Hp H1 H2.
  assert (Hq : 0 < 1 - p) by lra. destruct Hp as [Hp _].
  split; intros c Hc.
  - rewrite diTheta_fin in Hc by assumption. cbn [calls snd] in Hc.
    assert (Hpos : exists cs, c_fdata c = map Fin cs
                   /\ c_f c = dinidlGaussTheta.NDIntegrand
                   /\ forall k, (k < 2)%nat ->
                        0 < Spec.coef cs k /\ 0 < Spec.coef cs (k + 2)).
    { destruct Hc as [<-|[<-|[]]]; eexists; (split; [reflexivity|]);
        (split; [reflexivity|]); intros k Hk.
      - now apply correlated_weights_pos.
      - now apply marginal_weights_pos. }
    destruct Hpos as (cs & -> & Hf & Hw). exists cs. split; [reflexivity|].
    intros pt.
    assert (P : forall k, (k < 2)%nat -> 0 < Spec.psx cs k pt /\ 0 < Spec.pisx cs k pt).
    { intros k Hk. destruct (Hw k Hk). split; [now apply psx_pos|now apply pisx_pos]. }
    destruct (P 0%nat) as [P0 Q0]; [lia|]. destruct (P 1%nat) as [P1 Q1]; [lia|].
    split; [|split].
    + intros k Hk. destruct (P k Hk). repeat split; try assumption.
      now apply di_densities_fin.
    + now apply di_class_loop_fin.
    + rewrite Hf. unfold dinidlGaussTheta.NDIntegrand. cbn [dinidlGaussTheta.points].
      now rewrite di_point_fin.
  - rewrite mexFunction_fin in Hc by assumption.
    assert (Hpos : exists cs, c_fdata c = map Fin cs
                   /\ c_f c = infoGauss.NDIntegrand
                   /\ forall k, (k < 2)%nat -> 0 < Spec.coef cs (k + 2)).
    { destruct Hc as [<-|[]]. destruct (Z.max m n =? 1)%Z; eexists;
        (split; [reflexivity|]); (split; [reflexivity|]); intros k Hk.
      - rewrite <- (app_nil_r (Coefficients.marginal p (1 - p))).
        now apply marginal_weights_pos.
      - rewrite <- (app_nil_r (Coefficients.correlated p (1 - p) rho1 rho2)).
        now apply correlated_weights_pos. }
    destruct Hpos as (cs & -> & Hf & Hw). exists cs. split; [reflexivity|].
    intros pt.
    assert (P0 : 0 < Spec.psx cs 0 pt) by (apply psx_pos, Hw; lia).
    assert (P1 : 0 < Spec.psx cs 1 pt) by (apply psx_pos, Hw; lia).
    split; [|split].
    + intros k Hk. split; [apply psx_pos, Hw; assumption|].
      now apply info_density_fin.
    + now apply info_class_loop_fin.
    + rewrite Hf. unfold infoGauss.NDIntegrand. cbn [infoGauss.points].
      now rewrite info_point_fin.
Qed.

Lemma densities_positive_witness :
  exists cs : list R,
    c_fdata (cubature_call dinidlGaussTheta.NDIntegrand
               (map Fin (Coefficients.correlated (1 / 2) (1 - 1 / 2) 0 0 ++ [1; 1])) 2)
    = map Fin cs
    /\ 0 < Spec.psx cs 0 [0; 0]
    /\ dinidlGaussTheta.NDIntegrand 2%nat 1%nat [Fin 0; Fin 0] (map Fin cs) 1%nat
       = [Fin (Spec.divergence cs [0; 0])].
Proof.
  destruct (@densities_positive zero_cubature nan_junk (1 / 2) 0 0 1 1 3)
    as [Hdi _]; [lra|lra|lra|].
  destruct (Hdi (cubature_call dinidlGaussTheta.NDIntegrand
                   (map Fin (Coefficients.correlated (1 / 2) (1 - 1 / 2) 0 0 ++ [1; 1])) 2))
    as (cs & E & H).
  - rewrite diTheta_fin by lra. left. reflexivity.
  - exists cs. split; [exact E|]. destruct (H [0; 0]) as (Hk & _ & Hv). split.
    + apply (Hk 0%nat). lia.
    + rewrite <- E. exact Hv.
Defined.

End Claims_densities.

(** ** The guard against values that are not finite *)

Section Guard.
Local Open Scope R_scope.

Lemma xadd_not_finite (a t : xreal) : xfinite t = false -> xfinite (xadd a t) = false.
Proof. destruct a, t; simpl; congruence. Qed.

Lemma xadd_not_finite_l (a t : xreal) : xfinite a = false -> xfinite (xadd a t) = false.
Proof. destruct a, t; simpl; congruence. Qed.

Lemma di_class_step_dinow xdim (x params : list xreal) k a :
  dinidlGaussTheta.dinow (dinidlGaussTheta.class_step xdim x params k a)
  = xadd (dinidlGaussTheta.dinow a) (divergence_term xdim x params k).
Proof.
  unfold dinidlGaussTheta.class_step, divergence_term.
  now destruct (dinidlGaussTheta.densities xdim x params k).
Qed.

Lemma info_class_step_infonow xdim (x params : list xreal) k a :
  infoGauss.infonow (infoGauss.class_step xdim x params k a)
  = xadd (infoGauss.infonow a) (entropy_term xdim x params k).
Proof. reflexivity. Qed.

(** A class term that is not finite zeroes the whole point. *)
Lemma di_point_zero xdim (x params : list xreal) :
  xfinite (divergence_term xdim x params 0) = false
  \/ xfinite (divergence_term xdim x params 1) = false ->
  dinidlGaussTheta.point xdim x params = lit 0.
Proof.
  intros H. unfold dinidlGaussTheta.point. cbn [dinidlGaussTheta.class_loop].
  set (a0 := dinidlGaussTheta.class_step xdim x params 0 _).
  set (a1 := dinidlGaussTheta.class_step xdim x params 1 a0).
  cbn [isfinite xreal_ops].
  destruct (xfinite (dinidlGaussTheta.dinow a0)) eqn:E0.
  - assert (E1 : xfinite (dinidlGaussTheta.dinow a1) = false).
    { unfold a1. rewrite di_class_step_dinow. destruct H as [H|H].
      - unfold a0 in E0. rewrite di_class_step_dinow in E0.
        rewrite xadd_not_finite in E0 by assumption. discriminate.
      - now apply xadd_not_finite. }
    now rewrite E1, E1.
  - now rewrite E0.
Qed.

Lemma info_point_zero xdim (x params : list xreal) :
  xfinite (entropy_term xdim x params 0) = false
  \/ xfinite (entropy_term xdim x params 1) = false ->
  infoGauss.point xdim x params = lit 0.
Proof.
  intros H. unfold infoGauss.point. cbn [infoGauss.class_loop].
  set (a0 := infoGauss.class_step xdim x params 0 _).
  set (a1 := infoGauss.class_step xdim x params 1 a0).
  cbn [isfinite xreal_ops].
  destruct (xfinite (infoGauss.infonow a0)) eqn:E0.
  - assert (E1 : xfinite (infoGauss.infonow a1) = false).
    { unfold a1. rewrite info_class_step_infonow. destruct H as [H|H].
      - unfold a0 in E0. rewrite info_class_step_infonow in E0.
        rewrite xadd_not_finite in E0 by assumption. discriminate.
      - now apply xadd_not_finite. }
    now rewrite E1, E1.
  - now rewrite E0.
Qed.

End Guard.

Section Claims_guard.
Local Open Scope R_scope.

Lemma xadd_finite (a t : xreal) :
  xfinite a = true -> xfinite t = true -> xfinite (xadd a t) = true.
Proof. destruct a, t; simpl; congruence. Qed.

Lemma di_point_finite_terms xdim (x params : list xreal) :
  xfinite (divergence_term xdim x params 0) = true ->
  xfinite (divergence_term xdim x params 1) = true ->
  dinidlGaussTheta.point xdim x params
  = guard
      (lit 0 + divergence_term xdim x params 0 + divergence_term xdim x params 1
       - (lit 0 + fst (dinidlGaussTheta.densities xdim x params 0)
          + fst (dinidlGaussTheta.densities xdim x params 1))
         * dlog ((lit 0 + fst (dinidlGaussTheta.densities xdim x params 0)
                  + fst (dinidlGaussTheta.densities xdim x params 1))
                 / (lit 0 + snd (dinidlGaussTheta.densities xdim x params 0)
                    + snd (dinidlGaussTheta.densities xdim x params 1))))%D.
Proof.
  intros F0 F1. unfold dinidlGaussTheta.point. cbn [dinidlGaussTheta.class_loop].
  unfold dinidlGaussTheta.class_step, divergence_term in *.
  destruct (dinidlGaussTheta.densities xdim x params 0) as [psx0 pisx0].
  destruct (dinidlGaussTheta.densities xdim x params 1) as [psx1 pisx1].
  cbn [dinidlGaussTheta.dinow dinidlGaussTheta.px dinidlGaussTheta.pix fst snd].
  cbn [isfinite xreal_ops dadd].
  assert (E0 : xfinite (xadd (lit 0) (psx0 * dlog (psx0 / pisx0))%D) = true)
    by now apply xadd_finite.
  rewrite E0.
  assert (E1 : xfinite (xadd (xadd (lit 0) (psx0 * dlog (psx0 / pisx0))%D)
                          (psx1 * dlog (psx1 / pisx1))%D) = true)
    by now apply xadd_finite.
  rewrite E1. cbn [dinidlGaussTheta.dinow dinidlGaussTheta.px dinidlGaussTheta.pix].
  rewrite E1. reflexivity.
Qed.

Lemma info_point_finite_terms xdim (x params : list xreal) :
  xfinite (entropy_term xdim x params 0) = true ->
  xfinite (entropy_term xdim x params 1) = true ->
  infoGauss.point xdim x params
  = guard
      (lit 0 + entropy_term xdim x params 0 + entropy_term xdim x params 1
       - (lit 0 + infoGauss.density xdim x params 0 + infoGauss.density xdim x params 1)
         * dlog (lit 0 + infoGauss.density xdim x params 0
                 + infoGauss.density xdim x params 1))%D.
Proof.
  intros F0 F1. unfold infoGauss.point. cbn [infoGauss.class_loop].
  unfold infoGauss.class_step, entropy_term in *.
  cbn [infoGauss.infonow infoGauss.px]. cbn [isfinite xreal_ops dadd].
  set (t0 := (infoGauss.density xdim x params 0 * dlog (infoGauss.density xdim x params 0))%D) in *.
  set (t1 := (infoGauss.density xdim x params 1 * dlog (infoGauss.density xdim x params 1))%D) in *.
  assert (E0 : xfinite (xadd (lit 0) t0) = true) by now apply xadd_finite.
  rewrite E0.
  assert (E1 : xfinite (xadd (xadd (lit 0) t0) t1) = true) by now apply xadd_finite.
  rewrite E1. cbn [infoGauss.infonow infoGauss.px]. rewrite E1. reflexivity.
Qed.

Lemma exp_minus2_bounds : 0 < exp (-2) < 1.
Proof.
  split; [apply exp_pos|]. rewrite <- exp_0. apply exp_increasing. lra.
Qed.


Lemma entropy_gap : 2 * ln 2 - (2 - exp (-2)) * ln (2 - exp (-2)) <> 0.
Proof.
  pose proof exp_minus2_bounds as [He0 He1].
  assert (L1 : 0 < ln (2 - exp (-2))).
  { rewrite <- ln_1. apply ln_increasing; lra. }
  assert (L2 : ln (2 - exp (-2)) < ln 2) by (apply ln_increasing; lra).
  nra.
Qed.

Lemma divergence_gap : 2 * ln (2 / 1) - 2 * ln (2 / (1 + exp (-2))) <> 0.
Proof.
  pose proof exp_minus2_bounds as [He0 He1].
  replace (2 / 1) with 2 by lra.
  assert (Q0 : 0 < 2 / (1 + exp (-2))) by (apply Rdiv_lt_0_compat; lra).
  assert (Q1 : 2 / (1 + exp (-2)) < 2).
  { apply Rmult_lt_reg_r with (1 + exp (-2)); [lra|]. field_simplify; lra. }
  assert (L2 : ln (2 / (1 + exp (-2))) < ln 2) by (apply ln_increasing; assumption).
  lra.
Qed.

(** The densities of the two arrays at the point [x = 1]. *)
Lemma negative_weight_psx0 : Spec.psx negative_weight 0 [1] = - exp (-2).
Proof.
  unfold Spec.psx, Spec.coef, Spec.sumsq, Spec.prod, negative_weight. cbn.
  replace (-0.5 * 1 * ((1 + 1) * (1 + 1) + 0) + 0 * ((1 + 1) * 1)) with (-2) by lra.
  ring.
Qed.

Lemma negative_weight_psx1 : Spec.psx negative_weight 1 [1] = 2.
Proof.
  unfold Spec.psx, Spec.coef, Spec.sumsq, Spec.prod, negative_weight. cbn.
  replace (-0.5 * 1 * ((1 + -1) * (1 + -1) + 0) + 0 * ((1 + -1) * 1)) with 0 by lra.
  rewrite exp_0. ring.
Qed.

Lemma negative_weight_density k : (k < 2)%nat ->
  infoGauss.density 1 [Fin 1] (map Fin negative_weight) k
  = Fin (Spec.psx negative_weight k [1]).
Proof. intros Hk. now apply (@info_density_fin negative_weight [1] k). Qed.

Lemma zero_weight_0 :
  dinidlGaussTheta.densities 1 [Fin 1] (map Fin zero_weight) 0 = (Fin 0, Fin (exp (-2))).
Proof.
  etransitivity; [apply (@di_densities_fin zero_weight [1] 0%nat); lia|].
  unfold Spec.psx, Spec.pisx, Spec.coef, Spec.sumsq, Spec.prod, zero_weight. cbn.
  replace (-0.5 * 1 * ((1 + 1) * (1 + 1) + 0)) with (-2) by lra.
  f_equal; f_equal; ring.
Qed.

Lemma zero_weight_1 :
  dinidlGaussTheta.densities 1 [Fin 1] (map Fin zero_weight) 1 = (Fin 2, Fin 1).
Proof.
  etransitivity; [apply (@di_densities_fin zero_weight [1] 1%nat); lia|].
  unfold Spec.psx, Spec.pisx, Spec.coef, Spec.sumsq, Spec.prod, zero_weight. cbn.
  replace (-0.5 * 1 * ((1 + -1) * (1 + -1) + 0) + 0 * ((1 + -1) * 1)) with 0 by lra.
  replace (-0.5 * 1 * ((1 + -1) * (1 + -1) + 0)) with 0 by lra.
  rewrite exp_0. f_equal; f_equal; ring.
Qed.

(** C7, as the specification states it, fails, in either integrand, at
    the point [x = 1] with scales [a = (1, 1)] and no cross term.
    Entropy, weights [w = (-1, 2)]: the first class has the negative density
    [-exp(-2)], so its term is NaN; the integrand stores 0 for the point,
    whereas with only the offending term replaced by 0 the point would get
    [2 log 2 - (2 - exp(-2)) log(2 - exp(-2))].
    Divergence, weights [w = (0, 2)] and reference weights and scales 1: the
    first class has the density 0, so its term is [0 * log 0], NaN; the
    integrand stores 0 for the point, whereas with only the offending term
    replaced by 0 the point would get [2 log 2 - 2 log(2/(1 + exp(-2)))].
    Neither value is 0. *)
Lemma guard_counterexample :
  (exists v : R,
      xfinite (entropy_term 1 [Fin 1] (map Fin negative_weight) 0) = false
      /\ infoGauss.NDIntegrand 1%nat 1%nat [Fin 1] (map Fin negative_weight) 1%nat
         = [Fin 0]
      /\ Claimed.entropy_point 1 [Fin 1] (map Fin negative_weight) = Fin v
      /\ v <> 0)
  /\ (exists v : R,
         xfinite (divergence_term 1 [Fin 1] (map Fin zero_weight) 0) = false
         /\ dinidlGaussTheta.NDIntegrand 1%nat 1%nat [Fin 1] (map Fin zero_weight) 1%nat
            = [Fin 0]
         /\ Claimed.divergence_point 1 [Fin 1] (map Fin zero_weight) = Fin v
         /\ v <> 0).
Proof.
  pose proof exp_minus2_bounds as [He0 He1]. split.
  - assert (T0 : entropy_term 1 [Fin 1] (map Fin negative_weight) 0 = NaN).
    { unfold entropy_term. rewrite negative_weight_density, negative_weight_psx0 by lia.
      cbn [dmul dlog xreal_ops]. rewrite xlog_neg by lra. reflexivity. }
    assert (T1 : entropy_term 1 [Fin 1] (map Fin negative_weight) 1 = Fin (2 * ln 2)).
    { unfold entropy_term. rewrite negative_weight_density, negative_weight_psx1 by lia.
      cbn [dmul dlog xreal_ops]. rewrite xlog_fin by lra. reflexivity. }
    exists (2 * ln 2 - (2 - exp (-2)) * ln (2 - exp (-2))).
    split; [now rewrite T0|]. split; [|split].
    + unfold infoGauss.NDIntegrand. cbn [infoGauss.points].
      rewrite info_point_zero by (left; now rewrite T0).
      now rewrite lit_zero.
    + unfold Claimed.entropy_point. rewrite T0, T1.
      rewrite !negative_weight_density, negative_weight_psx0, negative_weight_psx1 by lia.
      rewrite lit_zero. unfold guard.
      cbn [isfinite xreal_ops xfinite dadd xadd]. rewrite lit_zero.
      cbn [xadd dmul dlog dsub xreal_ops].
      replace (0 + - exp (-2) + 2) with (2 - exp (-2)) by ring.
      rewrite xlog_fin by lra. cbn [xmul xsub xfinite]. f_equal. ring.
    + apply entropy_gap.
  - assert (T0 : divergence_term 1 [Fin 1] (map Fin zero_weight) 0 = NaN).
    { unfold divergence_term. rewrite zero_weight_0.
      cbn [dmul dlog ddiv xreal_ops]. rewrite xdiv_fin by lra.
      replace (0 / exp (-2)) with 0 by (field; lra).
      cbn [xlog]. rewrite Rsgn_zero. cbn [xmul xsgn sgn_mul]. now rewrite Rsgn_zero. }
    assert (T1 : divergence_term 1 [Fin 1] (map Fin zero_weight) 1 = Fin (2 * ln (2 / 1))).
    { unfold divergence_term. rewrite zero_weight_1.
      cbn [dmul dlog ddiv xreal_ops]. rewrite xdiv_fin by lra.
      rewrite xlog_fin by lra. reflexivity. }
    exists (2 * ln (2 / 1) - 2 * ln (2 / (1 + exp (-2)))).
    split; [now rewrite T0|]. split; [|split].
    + unfold dinidlGaussTheta.NDIntegrand. cbn [dinidlGaussTheta.points].
      rewrite di_point_zero by (left; now rewrite T0).
      now rewrite lit_zero.
    + unfold Claimed.divergence_point. rewrite T0, T1.
      rewrite zero_weight_0, zero_weight_1.
      rewrite lit_zero. unfold guard.
      cbn [isfinite xreal_ops xfinite dadd xadd fst snd]. rewrite lit_zero.
      cbn [xadd dmul dlog dsub ddiv xreal_ops].
      replace (0 + 0 + 2) with 2 by ring.
      replace (0 + exp (-2) + 1) with (1 + exp (-2)) by ring.
      rewrite xdiv_fin by lra.
      rewrite xlog_fin by (apply Rdiv_lt_0_compat; lra).
      cbn [xmul xsub xfinite]. f_equal. ring.
    + apply divergence_gap.
Qed.

(** C7, amended.  On idealised doubles, for every coefficient array and
    batch of points: if the term of either class at a point is not finite,
    the integrand stores 0 for that point (the term of the other class and the
    final correction do not count); if both terms are finite, it stores the
    sum of the terms minus the correction, or 0 when that total is not finite;
    and every point of the batch gets the value it would get alone, whatever
    happens at the other points. *)
Theorem guard_zeroes_point :
  forall (xdim : nat) (params : list xreal) (pts : list (list xreal)),
    Forall (fun pt => length pt = xdim) pts ->
    (dinidlGaussTheta.NDIntegrand xdim (length pts) (concat pts) params 1%nat
     = map (fun pt => dinidlGaussTheta.point xdim pt params) pts
     /\ infoGauss.NDIntegrand xdim (length pts) (concat pts) params 1%nat
        = map (fun pt => infoGauss.point xdim pt params) pts)
    /\ (forall pt : list xreal,
           (xfinite (divergence_term xdim pt params 0) = false
            \/ xfinite (divergence_term xdim pt params 1) = false ->
            dinidlGaussTheta.point xdim pt params = lit 0)
           /\ (xfinite (entropy_term xdim pt params 0) = false
               \/ xfinite (entropy_term xdim pt params 1) = false ->
               infoGauss.point xdim pt params = lit 0))
    /\ (forall pt : list xreal,
           (xfinite (divergence_term xdim pt params 0) = true ->
            xfinite (divergence_term xdim pt params 1) = true ->
            dinidlGaussTheta.point xdim pt params
            = guard
                (lit 0 + divergence_term xdim pt params 0
                 + divergence_term xdim pt params 1
                 - (lit 0 + fst (dinidlGaussTheta.densities xdim pt params 0)
                    + fst (dinidlGaussTheta.densities xdim pt params 1))
                   * dlog ((lit 0 + fst (dinidlGaussTheta.densities xdim pt params 0)
                            + fst (dinidlGaussTheta.densities xdim pt params 1))
                           / (lit 0 + snd (dinidlGaussTheta.densities xdim pt params 0)
                              + snd (dinidlGaussTheta.densities xdim pt params 1))))%D)
           /\ (xfinite (entropy_term xdim pt params 0) = true ->
               xfinite (entropy_term xdim pt params 1) = true ->
               infoGauss.point xdim pt params
               = guard
                   (lit 0 + entropy_term xdim pt params 0 + entropy_term xdim pt params 1
                    - (lit 0 + infoGauss.density xdim pt params 0
                       + infoGauss.density xdim pt params 1)
                      * dlog (lit 0 + infoGauss.density xdim pt params 0
                              + infoGauss.density xdim pt params 1))%D)).
Proof.
  intros xdim params pts Hpts. split; [split|split].
  - now apply Pointwise.di_points_concat.
  - now apply Pointwise.info_points_concat.
  - intros pt. split; [apply di_point_zero|apply info_point_zero].
  - intros pt. split; [apply di_point_finite_terms|apply info_point_finite_terms].
Qed.

Lemma guard_zeroes_point_witness :
  infoGauss.NDIntegrand 1%nat 2%nat [Fin 1; Fin 0] (map Fin negative_weight) 1%nat
  = [infoGauss.point 1 [Fin 1] (map Fin negative_weight);
     infoGauss.point 1 [Fin 0] (map Fin negative_weight)].
Proof.
  apply (@guard_zeroes_point 1%nat (map Fin negative_weight) [[Fin 1]; [Fin 0]]).
  repeat constructor.
Defined.

End Claims_guard.

(** ** Claims on the two entry points *)

Section Claims_entry.
Local Open Scope R_scope.

Lemma entropy_term_fin (p : R) : 0 < p < 1 ->
  ((- Fin p) * dlog (Fin p) - (lit 1 - Fin p) * dlog (lit 1 - Fin p))%D
  = Fin (- p * ln p - (1 - p) * ln (1 - p)).
Proof.
  intros Hp. rewrite one_minus_fin. cbn [dneg dmul dlog dsub xreal_ops xneg].
  rewrite !xlog_fin by lra. reflexivity.
Qed.

(** The entropy integrand on coefficients with positive weights. *)
Lemma entropy_integrand_value (cs pt : list R) :
  (forall k, (k < 2)%nat -> 0 < Spec.coef cs (k + 2)) ->
  infoGauss.NDIntegrand (length pt) 1%nat (map Fin pt) (map Fin cs) 1%nat
  = [Fin (Spec.entropy cs pt)].
Proof.
  intros Hw. unfold infoGauss.NDIntegrand. cbn [infoGauss.points].
  rewrite info_point_fin; [reflexivity| |]; apply psx_pos, Hw; lia.
Qed.

Lemma mexFunction_marginal (hcub : cubature xreal) (junk : nat -> xreal)
    (m n : Z) (p : R) (rhos : list xreal) :
  0 < p < 1 -> Z.max m n = 1%Z ->
  infoGauss.mexFunction hcub junk (m, n) (Fin p :: rhos)
  = (xadd (fst (hcub (cubature_call infoGauss.NDIntegrand
                        (map Fin (Coefficients.marginal p (1 - p))) 1)))
       (Fin (- p * ln p - (1 - p) * ln (1 - p))),
     [cubature_call infoGauss.NDIntegrand
        (map Fin (Coefficients.marginal p (1 - p))) 1]).
Proof.
  intros Hp E. rewrite mexFunction_unfold_1D by assumption. cbv zeta.
  cbn [rd nth]. rewrite entropy_term_fin by assumption.
  rewrite !one_minus_fin, !w1_fin, lit_one', lit_zero. reflexivity.
Qed.

Lemma mexFunction_correlated (hcub : cubature xreal) (junk : nat -> xreal)
    (m n : Z) (p rho1 rho2 : R) (rest : list xreal) :
  0 < p < 1 -> -1 < rho1 < 1 -> -1 < rho2 < 1 -> Z.max m n <> 1%Z ->
  infoGauss.mexFunction hcub junk (m, n) (Fin p :: Fin rho1 :: Fin rho2 :: rest)
  = (xadd (fst (hcub (cubature_call infoGauss.NDIntegrand
                        (map Fin (Coefficients.correlated p (1 - p) rho1 rho2)) 2)))
       (Fin (- p * ln p - (1 - p) * ln (1 - p))),
     [cubature_call infoGauss.NDIntegrand
        (map Fin (Coefficients.correlated p (1 - p) rho1 rho2)) 2]).
Proof.
  intros Hp H1 H2 E. rewrite mexFunction_unfold_2D by assumption. cbv zeta.
  cbn [rd nth]. rewrite entropy_term_fin by assumption.
  rewrite !a_fin, !one_minus_fin by assumption.
  rewrite !w2_fin by (apply a_pos; assumption). reflexivity.
Qed.

(** C8.  For a mixing weight [0 < p < 1], on idealised doubles,
    [infoGauss.mexFunction] makes exactly one call to the integrator and
    returns its estimate plus [-p log p - (1-p) log(1-p)], [log] being the
    natural logarithm [ln].  When the larger dimension of the parameter array
    is 1 the call integrates, over [-5,5], the entropy integrand with the
    coefficients [w_k = p_k/sqrt(2 pi)], [a_k = 1], [b_k = 0], whatever the
    rest of the array holds; otherwise, for [|rho1| < 1] and [|rho2| < 1], it
    integrates over [-5,5]x[-5,5] the entropy integrand with
    [a_k = 1/(1-rho_k^2)], [w_k = p_k sqrt(a_k)/(2 pi)], [b_k = rho_k a_k].
    The other arguments of the call are those of [cubature_call]: one
    component, at most 1000 evaluations, tolerances 1E-6 and 1E-3.  With those
    coefficients the integrand stores, at every finite point, the value
    [psx_1 ln psx_1 + psx_2 ln psx_2 - px ln px] of the mixture. *)
Theorem mutual_information_value :
  forall (hcub : cubature xreal) (junk : nat -> xreal) (p : R),
    0 < p < 1 ->
    let h := - p * ln p - (1 - p) * ln (1 - p) in
    (forall (m n : Z) (rhos : list xreal),
        Z.max m n = 1%Z ->
        let cs := Coefficients.marginal p (1 - p) in
        let c := cubature_call infoGauss.NDIntegrand (map Fin cs) 1 in
        infoGauss.mexFunction hcub junk (m, n) (Fin p :: rhos)
        = (xadd (fst (hcub c)) (Fin h), [c])
        /\ c_dim c = 1%nat
        /\ c_xmin c = [Fin (-5); Fin (-5)] /\ c_xmax c = [Fin 5; Fin 5]
        /\ forall pt : list R,
            c_f c (length pt) 1%nat (map Fin pt) (c_fdata c) 1%nat
            = [Fin (Spec.entropy cs pt)])
    /\ (forall (m n : Z) (rho1 rho2 : R) (rest : list xreal),
          Z.max m n <> 1%Z -> -1 < rho1 < 1 -> -1 < rho2 < 1 ->
          let cs := Coefficients.correlated p (1 - p) rho1 rho2 in
          let c := cubature_call infoGauss.NDIntegrand (map Fin cs) 2 in
          infoGauss.mexFunction hcub junk (m, n) (Fin p :: Fin rho1 :: Fin rho2 :: rest)
          = (xadd (fst (hcub c)) (Fin h), [c])
          /\ c_dim c = 2%nat
          /\ c_xmin c = [Fin (-5); Fin (-5)] /\ c_xmax c = [Fin 5; Fin 5]
          /\ forall pt : list R,
              c_f c (length pt) 1%nat (map Fin pt) (c_fdata c) 1%nat
              = [Fin (Spec.entropy cs pt)]).
Proof.
  intros hcub junk p Hp h. assert (Hq : 0 < 1 - p) by lra. split.
  - intros m n rhos E cs c. split; [now apply mexFunction_marginal|].
    split; [reflexivity|]. cbn [c_xmin c_xmax c_f c_fdata c cubature_call].
    rewrite lit_five, lit_minus_five. split; [reflexivity|]. split; [reflexivity|].
    intros pt. apply entropy_integrand_value. intros k Hk.
    unfold cs. rewrite <- (app_nil_r (Coefficients.marginal p (1 - p))).
    apply marginal_weights_pos; [lra|assumption|assumption].
  - intros m n rho1 rho2 rest E H1 H2 cs c. split; [now apply mexFunction_correlated|].
    split; [reflexivity|]. cbn [c_xmin c_xmax c_f c_fdata c cubature_call].
    rewrite lit_five, lit_minus_five. split; [reflexivity|]. split; [reflexivity|].
    intros pt. apply entropy_integrand_value. intros k Hk.
    unfold cs. rewrite <- (app_nil_r (Coefficients.correlated p (1 - p) rho1 rho2)).
    apply correlated_weights_pos; [lra|assumption..].
Qed.

Lemma mutual_information_value_witness :
  infoGauss.mexFunction zero_cubature nan_junk (1%Z, 1%Z) [Fin (1 / 4)]
  = (xadd
       (fst (zero_cubature
               (cubature_call infoGauss.NDIntegrand
                  (map Fin (Coefficients.marginal (1 / 4) (1 - 1 / 4))) 1)))
       (Fin (- (1 / 4) * ln (1 / 4) - (1 - 1 / 4) * ln (1 - 1 / 4))),
     [cubature_call infoGauss.NDIntegrand
        (map Fin (Coefficients.marginal (1 / 4) (1 - 1 / 4))) 1])
  /\ infoGauss.mexFunction zero_cubature nan_junk (1%Z, 3%Z)
       [Fin (1 / 4); Fin (1 / 2); Fin 0]
     = (xadd
          (fst (zero_cubature
                  (cubature_call infoGauss.NDIntegrand
                     (map Fin (Coefficients.correlated (1 / 4) (1 - 1 / 4) (1 / 2) 0)) 2)))
          (Fin (- (1 / 4) * ln (1 / 4) - (1 - 1 / 4) * ln (1 - 1 / 4))),
        [cubature_call infoGauss.NDIntegrand
           (map Fin (Coefficients.correlated (1 / 4) (1 - 1 / 4) (1 / 2) 0)) 2]).
Proof.
  assert (Hp : 0 < 1 / 4 < 1) by lra.
  destruct (@mutual_information_value zero_cubature nan_junk (1 / 4) Hp) as [H1 H2].
  split.
  - apply (H1 1%Z 1%Z []). reflexivity.
  - apply (H2 1%Z 3%Z (1 / 2) 0 []); [discriminate|lra|lra].
Defined.

Lemma Rsgn_eq0 r : r = 0 -> Rsgn r = Eq.
Proof. intros ->. apply Rsgn_zero. Qed.

Lemma a_infinite (rho : R) : rho * rho = 1 ->
  (lit 1.0 / (lit 1.0 - Fin rho * Fin rho))%D = PInf.
Proof.
  intros H. rewrite lit_one'. cbn [dmul dsub ddiv xreal_ops xmul xsub xdiv].
  rewrite Rsgn_eq0 by lra. now rewrite Rsgn_pos by lra.
Qed.

End Claims_entry.

Section Claims_domain.
Context {D : Type} {ops : DoubleOps D}.
Variable hcub : cubature D.
Variable junk : nat -> D.
Local Open Scope double_scope.

Lemma info_first_call (m n : Z) (par : list D) :
  exists c : hcub_call D,
    calls (infoGauss.mexFunction hcub junk (m, n) par) = [c]
    /\ c_f c = infoGauss.NDIntegrand
    /\ rd (c_fdata c) 4
       = if (Z.max m n =? 1)%Z then lit 1.0
         else lit 1.0 / (lit 1.0 - rd par 1 * rd par 1).
Proof.
  destruct (Z.eqb_spec (Z.max m n) 1) as [E|E].
  - rewrite mexFunction_unfold_1D by assumption. eexists. now split.
  - rewrite mexFunction_unfold_2D by assumption. eexists. now split.
Qed.

Lemma dinidl_first_call (gsl : fminimizer D) (fuel : nat) (par : list D) :
  exists (c : hcub_call D) (rest : list (hcub_call D)),
    calls (dinidlGaussTheta.mexFunction hcub junk gsl fuel par) = c :: rest
    /\ c_f c = dinidlGaussTheta.NDIntegrand
    /\ rd (c_fdata c) 4 = lit 1.0 / (lit 1.0 - rd par 1 * rd par 1)
    /\ rd (c_fdata c) 5 = lit 1.0 / (lit 1.0 - rd par 2 * rd par 2).
Proof.
  unfold dinidlGaussTheta.mexFunction, dinidlGaussTheta.bracket_search.
  rewrite !calls_bind, diTheta_unfold. cbv zeta. cbn [calls snd app].
  eexists. eexists. split; [reflexivity|]. now repeat split.
Qed.

End Claims_domain.

(** C2, as the specification states it, fails: with [rho1 = 1] neither
    entry point stops before integrating.  [infoGauss.mexFunction] makes its
    call to the integrator, and [dinidlGaussTheta.mexFunction] its first one,
    with the coefficient [a_1 = 1/(1 - rho1^2) = 1/0], which is +infinity. *)
Lemma domain_check_counterexample :
  (exists c : hcub_call xreal,
      calls (infoGauss.mexFunction zero_cubature nan_junk (1%Z, 3%Z)
               [Fin (1 / 2); Fin 1; Fin 0]) = [c]
      /\ rd (c_fdata c) 4 = PInf)
  /\ (exists (c : hcub_call xreal) (rest : list (hcub_call xreal)),
         calls (dinidlGaussTheta.mexFunction zero_cubature nan_junk
                  (never_converges (D:=xreal)) 0 [Fin (1 / 2); Fin 1; Fin 0]) = c :: rest
         /\ rd (c_fdata c) 4 = PInf).
Proof.
  split.
  - destruct (info_first_call zero_cubature nan_junk 1 3 [Fin (1 / 2); Fin 1; Fin 0]%R)
      as (c & Hc & _ & Ha).
    exists c. split; [exact Hc|]. rewrite Ha.
    apply (@a_infinite 1). lra.
  - destruct (dinidl_first_call zero_cubature nan_junk (never_converges (D:=xreal)) 0
                [Fin (1 / 2); Fin 1; Fin 0]%R) as (c & rest & Hc & _ & Ha & _).
    exists c, rest. split; [exact Hc|]. rewrite Ha.
    apply (@a_infinite 1). lra.
Qed.

(** C2, amended.  Neither entry point examines its parameters: for every
    arithmetic and every parameter array, in the domain or not,
    [infoGauss.mexFunction] makes exactly one call to the integrator and
    [dinidlGaussTheta.mexFunction] starts with one, and in the
    two-dimensional case the coefficient [a_k] passed on is
    [1/(1 - rho_k^2)] as computed; on idealised doubles that quotient is
    +infinity for [rho_k = 1] and for [rho_k = -1]. *)
Theorem no_domain_check :
  (forall (D : Type) (ops : DoubleOps D) (hcub : cubature D) (junk : nat -> D)
          (m n : Z) (par : list D),
      exists c : hcub_call D,
        calls (infoGauss.mexFunction hcub junk (m, n) par) = [c]
        /\ c_f c = infoGauss.NDIntegrand
        /\ rd (c_fdata c) 4
           = if (Z.max m n =? 1)%Z then lit 1.0
             else (lit 1.0 / (lit 1.0 - rd par 1 * rd par 1))%D)
  /\ (forall (D : Type) (ops : DoubleOps D) (hcub : cubature D) (junk : nat -> D)
             (gsl : fminimizer D) (fuel : nat) (par : list D),
         exists (c : hcub_call D) (rest : list (hcub_call D)),
           calls (dinidlGaussTheta.mexFunction hcub junk gsl fuel par) = c :: rest
           /\ c_f c = dinidlGaussTheta.NDIntegrand
           /\ rd (c_fdata c) 4 = (lit 1.0 / (lit 1.0 - rd par 1 * rd par 1))%D
           /\ rd (c_fdata c) 5 = (lit 1.0 / (lit 1.0 - rd par 2 * rd par 2))%D)
  /\ (lit 1.0 / (lit 1.0 - Fin 1 * Fin 1))%D = PInf
  /\ (lit 1.0 / (lit 1.0 - Fin (-1) * Fin (-1)))%D = PInf.
Proof.
  split; [|split; [|split]].
  - intros. apply info_first_call.
  - intros. apply dinidl_first_call.
  - apply a_infinite. lra.
  - apply a_infinite. lra.
Qed.

(** The same quotient in IEEE binary64, whatever libm is. *)
Example binary64_unit_correlation :
  forall libm_exp libm_log : float -> float,
    @ddiv float (float_ops libm_exp libm_log)
      (@lit float (float_ops libm_exp libm_log) 1.0)
      (@dsub float (float_ops libm_exp libm_log)
         (@lit float (float_ops libm_exp libm_log) 1.0)
         (@dmul float (float_ops libm_exp libm_log)
            (@lit float (float_ops libm_exp libm_log) 1)
            (@lit float (float_ops libm_exp libm_log) 1)))
    = infinity.
Proof. intros. vm_compute. reflexivity. Qed.

(** ** The bracket search *)

(** The two loops as repeated turns, in every arithmetic. *)
Section BracketRun.
Context {D : Type} {ops : DoubleOps D}.
Variable hcub : cubature D.
Variable junk : nat -> D.
Variable par : list D.

Let f (th : D) : D := value (dinidlGaussTheta.diTheta hcub junk th par).








End BracketRun.

Section BracketOrder.




End BracketOrder.

Section Claims_bracket.
Local Open Scope R_scope.



Lemma parabola_loss (junk : nat -> xreal) (t : R) (par : list xreal) :
  value (dinidlGaussTheta.diTheta parabola_cubature junk (Fin t) par)
  = Fin ((t - 3) * (t - 3) + (t - 3) * (t - 3)).
Proof. rewrite diTheta_unfold. reflexivity. Qed.


End Claims_bracket.

(** * Further properties of the two programs *)

(** ** What the integrands store *)

Section Stored.
Context {D : Type} {ops : DoubleOps D}.

Lemma di_points_length xdim (params : list D) : forall numx x,
  length (dinidlGaussTheta.points xdim numx x params) = numx.
Proof. induction numx as [|n IH]; intros x; simpl; auto. Qed.

Lemma info_points_length xdim (params : list D) : forall numx x,
  length (infoGauss.points xdim numx x params) = numx.
Proof. induction numx as [|n IH]; intros x; simpl; auto. Qed.

Hypothesis zero_finite : isfinite (lit 0) = true.

Lemma di_point_stored_finite xdim (x params : list D) :
  isfinite (dinidlGaussTheta.point xdim x params) = true.
Proof.
  unfold dinidlGaussTheta.point.
  destruct (isfinite (dinidlGaussTheta.dinow _)); [|assumption].
  now destruct (isfinite (dsub _ _)) eqn:E.
Qed.

Lemma info_point_stored_finite xdim (x params : list D) :
  isfinite (infoGauss.point xdim x params) = true.
Proof.
  unfold infoGauss.point.
  destruct (isfinite (infoGauss.infonow _)); [|assumption].
  now destruct (isfinite (dsub _ _)) eqn:E.
Qed.

Lemma di_points_finite xdim (params : list D) : forall numx x,
  Forall (fun v => isfinite v = true) (dinidlGaussTheta.points xdim numx x params).
Proof.
  induction numx as [|n IH]; intros x; simpl; constructor; auto.
  apply di_point_stored_finite.
Qed.

Lemma info_points_finite xdim (params : list D) : forall numx x,
  Forall (fun v => isfinite v = true) (infoGauss.points xdim numx x params).
Proof.
  induction numx as [|n IH]; intros x; simpl; constructor; auto.
  apply info_point_stored_finite.
Qed.

End Stored.

(** X1.  In every arithmetic in which 0 is finite, for every dimension,
    batch size, array of points and coefficient array (of any length and
    content, NaN and infinities included), either integrand stores exactly
    [numx] values and every one of them is finite. *)
Theorem NDIntegrand_stores_finite :
  forall (D : Type) (ops : DoubleOps D) (xdim numx : nat) (x params : list D)
         (fdim : nat),
    isfinite (lit 0) = true ->
    (length (dinidlGaussTheta.NDIntegrand xdim numx x params fdim) = numx
     /\ Forall (fun v => isfinite v = true)
          (dinidlGaussTheta.NDIntegrand xdim numx x params fdim))
    /\ (length (infoGauss.NDIntegrand xdim numx x params fdim) = numx
        /\ Forall (fun v => isfinite v = true)
             (infoGauss.NDIntegrand xdim numx x params fdim)).
Proof.
  intros D ops xdim numx x params fdim H0.
  unfold dinidlGaussTheta.NDIntegrand, infoGauss.NDIntegrand. repeat split.
  - apply di_points_length.
  - now apply di_points_finite.
  - apply info_points_length.
  - now apply info_points_finite.
Qed.

Lemma NDIntegrand_stores_finite_witness :
  (length (dinidlGaussTheta.NDIntegrand 2 3 [NaN; PInf; Fin 1] [NaN; NInf] 1) = 3
   /\ Forall (fun v => isfinite v = true)
        (dinidlGaussTheta.NDIntegrand 2 3 [NaN; PInf; Fin 1] [NaN; NInf] 1))
  /\ (length (infoGauss.NDIntegrand 2 3 [NaN; PInf; Fin 1] [NaN; NInf] 1) = 3
      /\ Forall (fun v => isfinite v = true)
           (infoGauss.NDIntegrand 2 3 [NaN; PInf; Fin 1] [NaN; NInf] 1)).
Proof.
  apply (@NDIntegrand_stores_finite xreal xreal_ops 2 3 [NaN; PInf; Fin 1%R]
           [NaN; NInf] 1).
  reflexivity.
Defined.

(** ** The cells of the coefficient array the integrands read *)

Section CellsRead.
Context {D : Type} {ops : DoubleOps D}.

Lemma di_class_loop_cells xdim (x params params' : list D) :
  (forall i, i < 10 -> rd params i = rd params' i) ->
  forall n indmu a, n + indmu <= 2 ->
    dinidlGaussTheta.class_loop xdim x params n indmu a
    = dinidlGaussTheta.class_loop xdim x params' n indmu a.
Proof.
  intros Hcells. induction n as [|n IH]; intros indmu a Hn; simpl; auto.
  unfold dinidlGaussTheta.class_step, dinidlGaussTheta.densities.
  rewrite !(Hcells (indmu + _)) by lia.
  destruct (dinidlGaussTheta.center _ _ _ _ _) as [xcprod xc2sum]. cbv zeta.
  destruct (isfinite _); auto. apply IH. lia.
Qed.

Lemma info_class_loop_cells xdim (x params params' : list D) :
  (forall i, 2 <= i < 8 -> rd params i = rd params' i) ->
  forall n indmu a, n + indmu <= 2 ->
    infoGauss.class_loop xdim x params n indmu a
    = infoGauss.class_loop xdim x params' n indmu a.
Proof.
  intros Hcells. induction n as [|n IH]; intros indmu a Hn; simpl; auto.
  unfold infoGauss.class_step, infoGauss.density.
  rewrite !(Hcells (indmu + _)) by lia.
  destruct (infoGauss.center _ _ _ _ _) as [xcprod xc2sum]. cbv zeta.
  destruct (isfinite _); auto. apply IH. lia.
Qed.

End CellsRead.

(** X2.  The divergence integrand reads the cells 0 to 9 of its coefficient
    array and no other; the entropy integrand reads the cells 2 to 7 and no
    other (not the mixing weights in cells 0 and 1): two arrays that agree on
    those cells give the same values, for every arithmetic, dimension and
    batch. *)
Theorem NDIntegrand_cells_read :
  forall (D : Type) (ops : DoubleOps D) (xdim numx : nat) (x params params' : list D)
         (fdim : nat),
    ((forall i : nat, i < 10 -> rd params i = rd params' i) ->
     dinidlGaussTheta.NDIntegrand xdim numx x params fdim
     = dinidlGaussTheta.NDIntegrand xdim numx x params' fdim)
    /\ ((forall i : nat, 2 <= i < 8 -> rd params i = rd params' i) ->
        infoGauss.NDIntegrand xdim numx x params fdim
        = infoGauss.NDIntegrand xdim numx x params' fdim).
Proof.
  intros D ops xdim numx x params params' fdim.
  unfold dinidlGaussTheta.NDIntegrand, infoGauss.NDIntegrand. split; intros Hcells.
  - revert x. induction numx as [|n IH]; intros x; simpl; [reflexivity|].
    rewrite IH. f_equal. unfold dinidlGaussTheta.point.
    now rewrite (@di_class_loop_cells _ _ xdim x params params' Hcells) by lia.
  - revert x. induction numx as [|n IH]; intros x; simpl; [reflexivity|].
    rewrite IH. f_equal. unfold infoGauss.point.
    now rewrite (@info_class_loop_cells _ _ xdim x params params' Hcells) by lia.
Qed.

Lemma NDIntegrand_cells_read_witness :
  infoGauss.NDIntegrand 1 2 [Fin 1; Fin 0] [NaN; PInf; Fin 1; Fin 2; Fin 1; Fin 1; Fin 0; Fin 0] 1
  = infoGauss.NDIntegrand 1 2 [Fin 1; Fin 0]
      [Fin 0; Fin 0; Fin 1; Fin 2; Fin 1; Fin 1; Fin 0; Fin 0; NaN] 1.
Proof.
  apply (@NDIntegrand_cells_read xreal xreal_ops 1 2 [Fin 1%R; Fin 0%R]
           [NaN; PInf; Fin 1%R; Fin 2%R; Fin 1%R; Fin 1%R; Fin 0%R; Fin 0%R]
           [Fin 0%R; Fin 0%R; Fin 1%R; Fin 2%R; Fin 1%R; Fin 1%R; Fin 0%R; Fin 0%R; NaN] 1).
  intros i Hi. do 8 (destruct i as [|i]; [try lia; reflexivity|]). lia.
Defined.

(** ** The dimensions of the parameter array *)

(** X3.  For every arithmetic and integrator: the call
    [infoGauss.mexFunction] makes and the value it returns depend on the two
    integers it reads as [parnum[0]] and [parnum[1]] at line 138 only through
    the test whether the larger of them is 1.  Two pairs on which that test
    agrees give, on the same data, the same call and the same result: the
    pairs (1, 3) and (3, 1) are treated alike, and every pair whose larger
    member is not 1 (0 and 2 included) takes the two-dimensional branch.  The
    statement is about the pair as read, which is the pair of dimensions of
    the parameter array only where the size type of the interface is as wide
    as [int]; the writes of lines 139 and 167 into the dimension vector of
    the input are not part of it. *)
Theorem mexFunction_orientation :
  forall (D : Type) (ops : DoubleOps D) (hcub : cubature D) (junk : nat -> D)
         (m n m' n' : Z) (par : list D),
    (Z.max m n =? 1)%Z = (Z.max m' n' =? 1)%Z ->
    infoGauss.mexFunction hcub junk (m, n) par
    = infoGauss.mexFunction hcub junk (m', n') par.
Proof.
  intros D ops hcub junk m n m' n' par H.
  destruct (Z.eqb_spec (Z.max m n) 1) as [E|E];
    destruct (Z.eqb_spec (Z.max m' n') 1) as [E'|E']; try discriminate.
  - now rewrite !mexFunction_unfold_1D.
  - now rewrite !mexFunction_unfold_2D.
Qed.

Lemma mexFunction_orientation_witness :
  infoGauss.mexFunction zero_cubature nan_junk (1%Z, 3%Z) [Fin (1 / 4); Fin (1 / 2); Fin 0]
  = infoGauss.mexFunction zero_cubature nan_junk (3%Z, 1%Z) [Fin (1 / 4); Fin (1 / 2); Fin 0].
Proof.
  apply (@mexFunction_orientation xreal xreal_ops zero_cubature nan_junk 1 3 3 1).
  reflexivity.
Defined.

(** ** Leaving the refinement loop *)

Section LeavingTheLoop.
Context {D : Type} {ops : DoubleOps D}.
Variable gsl : fminimizer D.

Lemma refine_body_value (r : dinidlGaussTheta.refinement gsl) :
  value (dinidlGaussTheta.refine_body r)
  = dinidlGaussTheta.Refinement gsl
      (value (fmin_iterate gsl (dinidlGaussTheta.s r)))
      (fmin_x_lower gsl (value (fmin_iterate gsl (dinidlGaussTheta.s r))))
      (fmin_x_upper gsl (value (fmin_iterate gsl (dinidlGaussTheta.s r))))
      (dinidlGaussTheta.iter r).
Proof. unfold dinidlGaussTheta.refine_body. now rewrite value_bind, value_ret. Qed.

Lemma refine_loop_exit (n : nat) : forall (s0 : fmin_state gsl) (a b : D) (fuel : nat),
  1 <= n <= fuel ->
  (forall j, 1 <= j < n -> interval_test gsl (refined gsl j s0) = GSL_CONTINUE) ->
  interval_test gsl (refined gsl n s0) <> GSL_CONTINUE ->
  value (dinidlGaussTheta.refine_loop fuel (dinidlGaussTheta.Refinement gsl s0 a b 0))
  = (n, Some (dinidlGaussTheta.Refinement gsl (refined gsl n s0)
                (fmin_x_lower gsl (refined gsl n s0))
                (fmin_x_upper gsl (refined gsl n s0)) 0)).
Proof.
  induction n as [|n IH]; intros s0 a b fuel Hn Hcont Hstop; [lia|].
  destruct fuel as [|k]; [lia|].
  cbn [dinidlGaussTheta.refine_loop]. rewrite value_bind, refine_body_value.
  cbn [dinidlGaussTheta.s dinidlGaussTheta.iter].
  set (s1 := value (fmin_iterate gsl s0)) in *.
  rewrite refine_test_zero. fold (interval_test gsl s1).
  destruct n as [|n].
  - cbn [refined] in Hstop. fold s1 in Hstop.
    destruct (Z.eqb_spec (interval_test gsl s1) GSL_CONTINUE); [contradiction|].
    reflexivity.
  - assert (H1 : interval_test gsl s1 = GSL_CONTINUE) by (apply (Hcont 1%nat); lia).
    rewrite H1. cbn [Z.eqb GSL_CONTINUE Pos.eqb]. rewrite value_bind.
    rewrite (IH s1); [reflexivity|lia| |exact Hstop].
    intros j Hj. apply (Hcont (S j)). lia.
Qed.

End LeavingTheLoop.

(** X10.  For every arithmetic and minimiser: entered with [iter = 0], the
    do-while loop refines at least once, also when the bracket it starts from
    already passes the interval test, and it is left after exactly the first
    refinement [n >= 1] whose bracket passes the test, however large [n] is;
    the variables then hold the state of the minimiser after [n] refinements
    and its bracket. *)
Theorem refine_loop_first_success :
  forall (D : Type) (ops : DoubleOps D) (gsl : fminimizer D) (s0 : fmin_state gsl)
         (a b : D) (n fuel : nat),
    1 <= n <= fuel ->
    (forall j : nat, 1 <= j < n ->
       interval_test gsl (refined gsl j s0) = GSL_CONTINUE) ->
    interval_test gsl (refined gsl n s0) <> GSL_CONTINUE ->
    value (dinidlGaussTheta.refine_loop fuel (dinidlGaussTheta.Refinement gsl s0 a b 0))
    = (n, Some (dinidlGaussTheta.Refinement gsl (refined gsl n s0)
                  (fmin_x_lower gsl (refined gsl n s0))
                  (fmin_x_upper gsl (refined gsl n s0)) 0)).
Proof. intros. now apply refine_loop_exit. Qed.

Lemma refine_loop_first_success_witness :
  value (dinidlGaussTheta.refine_loop 5
           (dinidlGaussTheta.Refinement (needs (D:=xreal) 3) 3%nat (lit (-0.5)) (lit 1.5) 0))
  = (3, Some (dinidlGaussTheta.Refinement (needs (D:=xreal) 3) 0%nat (lit 0) (lit 0) 0)).
Proof.
  apply (@refine_loop_first_success xreal xreal_ops (needs (D:=xreal) 3) 3%nat
           (lit (-0.5)) (lit 1.5) 3 5).
  - lia.
  - intros j Hj. assert (E : j = 1 \/ j = 2) by lia.
    destruct E as [-> | ->]; unfold interval_test; cbn;
      destruct (Rlt_dec (Q2R 0) (Q2R 1)) as [_|H]; auto; exfalso; apply H; q2r.
  - unfold interval_test. cbn.
    destruct (Rlt_dec (Q2R 0) (Q2R 0)) as [H|_]; [exfalso; lra|discriminate].
Defined.

(** ** The shape of the bracket *)

Section BracketShape.
Local Open Scope R_scope.
Variable hcub : cubature xreal.
Variable junk : nat -> xreal.
Variable par : list xreal.

Lemma xlt_asym (a b : xreal) : xlt a b = true -> xlt b a = false.
Proof.
  destruct a as [x| | |], b as [y| | |]; simpl; try discriminate; auto.
  destruct (Rlt_dec x y); [|discriminate]. intros _.
  destruct (Rlt_dec y x); [lra|reflexivity].
Qed.

Lemma lower_loop_shape (fuel : nat) : forall b b',
  seeds b \/ shifted_left b ->
  value (dinidlGaussTheta.lower_loop hcub junk par fuel b) = Some b' ->
  seeds b' \/ shifted_left b'.
Proof.
  induction fuel as [|k IH]; intros b b' Hb Hrun; [discriminate|].
  cbn [dinidlGaussTheta.lower_loop] in Hrun.
  destruct (dlt (dinidlGaussTheta.dil b) (dinidlGaussTheta.dim b)) eqn:Hlt.
  - rewrite value_bind in Hrun. apply IH in Hrun; [exact Hrun|]. right.
    destruct Hb as [(Hl & Hm & Hr)|(l & m & r & (Hl & Hm & Hr) & (E & M & MR & R5) & _)].
    + exists (-0.5 * Q2R 2), (-0.5), 0.5. split; [|split].
      * split; [|split]; cbn; [now rewrite Hl|assumption|assumption].
      * repeat split; lra.
      * exact Hlt.
    + exists (l * Q2R 2), l, m. split; [|split].
      * split; [|split]; cbn; [now rewrite Hl|assumption|assumption].
      * repeat split; lra.
      * exact Hlt.
  - injection Hrun as <-. exact Hb.
Qed.

Lemma upper_loop_shape (fuel : nat) : forall b b',
  seeds b \/ shifted_right b ->
  value (dinidlGaussTheta.upper_loop hcub junk par fuel b) = Some b' ->
  seeds b' \/ shifted_right b'.
Proof.
  induction fuel as [|k IH]; intros b b' Hb Hrun; [discriminate|].
  cbn [dinidlGaussTheta.upper_loop] in Hrun.
  destruct (dlt (dinidlGaussTheta.dir b) (dinidlGaussTheta.dim b)) eqn:Hlt.
  - rewrite value_bind in Hrun. apply IH in Hrun; [exact Hrun|]. right.
    destruct Hb as [(Hl & Hm & Hr)|(l & m & r & (Hl & Hm & Hr) & (E & L5 & LM) & _)].
    + exists 0.5, 1.5, (1.5 * Q2R 2). split; [|split].
      * split; [|split]; cbn; [assumption|assumption|now rewrite Hr].
      * repeat split; lra.
      * exact Hlt.
    + exists m, r, (r * Q2R 2). split; [|split].
      * split; [|split]; cbn; [assumption|assumption|now rewrite Hr].
      * repeat split; lra.
      * exact Hlt.
  - injection Hrun as <-. exact Hb.
Qed.

Lemma upper_loop_after_left (fuel : nat) (b b' : dinidlGaussTheta.bracket xreal) :
  shifted_left b ->
  value (dinidlGaussTheta.upper_loop hcub junk par fuel b) = Some b' ->
  b' = b.
Proof.
  intros (l & m & r & _ & _ & Hlt) Hrun. destruct fuel as [|k]; [discriminate|].
  cbn [dinidlGaussTheta.upper_loop] in Hrun.
  apply xlt_asym in Hlt. cbn [dlt xreal_ops] in Hrun. rewrite Hlt in Hrun.
  now injection Hrun as <-.
Qed.

Lemma bracket_search_shape (fuel : nat) (b : dinidlGaussTheta.bracket xreal) :
  value (dinidlGaussTheta.bracket_search hcub junk par fuel) = Some b ->
  seeds b \/ shifted_left b \/ shifted_right b.
Proof.
  unfold dinidlGaussTheta.bracket_search. rewrite !value_bind.
  destruct (value (dinidlGaussTheta.lower_loop hcub junk par fuel _)) as [b1|] eqn:E1;
    [|discriminate].
  intros E2. apply lower_loop_shape in E1; [|left; now repeat split].
  destruct E1 as [Hs|Hl].
  - apply upper_loop_shape in E2; [|now left]. tauto.
  - apply (upper_loop_after_left _ Hl) in E2. subst b. tauto.
Qed.

End BracketShape.

(** X9.  On idealised doubles, for every integrator and parameter array,
    whenever the two loops of the bracket search are left the bracket is the
    seed triple (-0.5, 0.5, 1.5), or it was shifted to the left only, or to
    the right only, never both ways.  Its thresholds are finite and strictly
    increasing; after shifts to the left the lower threshold is twice the
    middle one, which is negative, and the middle loss is strictly below the
    right one; after shifts to the right the upper threshold is twice the
    middle one and the middle loss is strictly below the left one. *)
Theorem bracket_search_one_direction :
  forall (hcub : cubature xreal) (junk : nat -> xreal) (par : list xreal)
         (fuel : nat) (b : dinidlGaussTheta.bracket xreal),
    value (dinidlGaussTheta.bracket_search hcub junk par fuel) = Some b ->
    (seeds b \/ shifted_left b \/ shifted_right b)
    /\ exists l m r : R, thresholds b l m r /\ (l < m < r)%R.
Proof.
  intros hcub junk par fuel b Hrun.
  pose proof (bracket_search_shape _ _ _ _ Hrun) as Hshape. split; [exact Hshape|].
  destruct Hshape as [Hs|[(l & m & r & Ht & (E & M & MR & R5) & _)
                         |(l & m & r & Ht & (E & L5 & LM) & _)]].
  - eexists _, _, _. split; [exact Hs|lra].
  - exists l, m, r. split; [exact Ht|lra].
  - exists l, m, r. split; [exact Ht|lra].
Qed.

Lemma bracket_search_one_direction_witness :
  exists b : dinidlGaussTheta.bracket xreal,
    value (dinidlGaussTheta.bracket_search parabola_cubature nan_junk
             [Fin (1 / 2); Fin 0; Fin 0] 3) = Some b
    /\ (seeds b \/ shifted_left b \/ shifted_right b)
    /\ exists l m r : R, thresholds b l m r /\ (l < m < r)%R.
Proof.
  eassert (E : value (dinidlGaussTheta.bracket_search parabola_cubature nan_junk
                        [Fin (1 / 2); Fin 0; Fin 0] 3) = Some _).
  { unfold dinidlGaussTheta.bracket_search. rewrite !value_bind.
    cbn [lit xreal_ops]. rewrite !parabola_loss.
    cbn [dinidlGaussTheta.lower_loop dinidlGaussTheta.dil dinidlGaussTheta.dim
         dlt xreal_ops].
    rewrite xlt_fin_false by lra. cbn [value ret fst].
    cbn [dinidlGaussTheta.upper_loop dinidlGaussTheta.dir dinidlGaussTheta.dim
         dinidlGaussTheta.thr dinidlGaussTheta.thm dlt dmul lit xreal_ops xmul].
    rewrite xlt_fin_true by lra. rewrite value_bind, parabola_loss.
    cbn [dinidlGaussTheta.upper_loop dinidlGaussTheta.dir dinidlGaussTheta.dim
         dinidlGaussTheta.thr dinidlGaussTheta.thm dlt dmul lit xreal_ops xmul].
    rewrite xlt_fin_true by lra. rewrite value_bind, parabola_loss.
    cbn [dinidlGaussTheta.upper_loop dinidlGaussTheta.dir dinidlGaussTheta.dim
         dinidlGaussTheta.thr dinidlGaussTheta.thm dlt dmul lit xreal_ops xmul].
    rewrite xlt_fin_false by lra. reflexivity. }
  eexists. split; [exact E|].
  exact (@bracket_search_one_direction parabola_cubature nan_junk
           [Fin (1 / 2); Fin 0; Fin 0] 3 _ E).
Defined.

(** ** The signs of the two integrands *)

Section Signs.
Local Open Scope R_scope.

Lemma ln_le_minus_1 (y : R) : 0 < y -> ln y <= y - 1.
Proof.
  intros Hy. pose proof (exp_ineq1_le (ln y)) as H. rewrite exp_ln in H by assumption. lra.
Qed.

Lemma ln_quotient (x y : R) : 0 < x -> 0 < y -> ln (x / y) = ln x - ln y.
Proof.
  intros Hx Hy. unfold Rdiv. rewrite ln_mult, ln_Rinv; try assumption; [lra|].
  now apply Rinv_0_lt_compat.
Qed.

(** The log-sum inequality for two terms. *)
Lemma log_sum (a1 a2 b1 b2 : R) :
  0 < a1 -> 0 < a2 -> 0 < b1 -> 0 < b2 ->
  0 <= a1 * ln (a1 / b1) + a2 * ln (a2 / b2)
       - (a1 + a2) * ln ((a1 + a2) / (b1 + b2)).
Proof.
  intros A1 A2 B1 B2.
  assert (HA : 0 < a1 + a2) by lra. assert (HB : 0 < b1 + b2) by lra.
  rewrite !ln_quotient by assumption.
  set (A := a1 + a2) in *. set (B := b1 + b2) in *.
  assert (T : forall a b, 0 < a -> 0 < b ->
                a - b * A / B <= a * (ln a - ln b - (ln A - ln B))).
  { intros a b Ha Hb.
    assert (Ht : 0 < b * A / (a * B)).
    { apply Rdiv_lt_0_compat; apply Rmult_lt_0_compat; assumption. }
    pose proof (ln_le_minus_1 Ht) as H.
    rewrite ln_quotient, !ln_mult in H by
      (try assumption; apply Rmult_lt_0_compat; assumption).
    apply Rmult_le_compat_l with (r := a) in H; [|lra].
    replace (a * (b * A / (a * B) - 1)) with (b * A / B - a) in H by (field; lra).
    lra. }
  pose proof (T a1 b1 A1 B1) as T1. pose proof (T a2 b2 A2 B2) as T2.
  assert (E : b1 * A / B + b2 * A / B = A) by (unfold B; field; lra).
  unfold A in *. lra.
Qed.

(** Equal ratios in the two classes give the value 0. *)
Lemma log_sum_equal (a1 a2 b1 b2 c : R) :
  0 < b1 -> 0 < b2 -> 0 < c -> a1 = c * b1 -> a2 = c * b2 ->
  a1 * ln (a1 / b1) + a2 * ln (a2 / b2) - (a1 + a2) * ln ((a1 + a2) / (b1 + b2)) = 0.
Proof.
  intros B1 B2 C -> ->.
  replace (c * b1 / b1) with c by (field; lra).
  replace (c * b2 / b2) with c by (field; lra).
  replace ((c * b1 + c * b2) / (b1 + b2)) with c by (field; lra).
  ring.
Qed.

(** Each class has less mass than the two together. *)
Lemma entropy_negative (a1 a2 : R) :
  0 < a1 -> 0 < a2 ->
  a1 * ln a1 + a2 * ln a2 - (a1 + a2) * ln (a1 + a2) < 0.
Proof.
  intros A1 A2.
  assert (L1 : ln a1 < ln (a1 + a2)) by (apply ln_increasing; lra).
  assert (L2 : ln a2 < ln (a1 + a2)) by (apply ln_increasing; lra).
  nra.
Qed.

(** The entropy of a binary variable lies in (0, ln 2]. *)
Lemma binary_entropy_bounds (p : R) :
  0 < p < 1 -> 0 < - p * ln p - (1 - p) * ln (1 - p) <= ln 2.
Proof.
  intros [Hp0 Hp1]. split.
  - assert (L1 : ln p < 0) by (rewrite <- ln_1; apply ln_increasing; lra).
    assert (L2 : ln (1 - p) < 0) by (rewrite <- ln_1; apply ln_increasing; lra).
    nra.
  - assert (T : forall q, 0 < q -> q * (- ln q - ln 2) <= / 2 - q).
    { intros q Hq.
      assert (Ht : 0 < / (2 * q)) by (apply Rinv_0_lt_compat; lra).
      pose proof (ln_le_minus_1 Ht) as H.
      rewrite ln_Rinv, ln_mult in H by lra.
      apply Rmult_le_compat_l with (r := q) in H; [|lra].
      replace (q * (/ (2 * q) - 1)) with (/ 2 - q) in H by (field; lra).
      lra. }
    pose proof (T p Hp0) as T1. pose proof (T (1 - p)) as T2.
    assert (0 < 1 - p) by lra. specialize (T2 H). lra.
Qed.

End Signs.

Section SignsOfIntegrands.
Variable hcub : cubature xreal.
Variable junk : nat -> xreal.

(** The calls of the two programs on valid parameters: finite coefficients
    with positive weights. *)
Lemma diTheta_calls_positive (p rho1 rho2 th : R) (c : hcub_call xreal) :
  (0 < p < 1)%R -> (-1 < rho1 < 1)%R -> (-1 < rho2 < 1)%R ->
  In c (calls (dinidlGaussTheta.diTheta hcub junk (Fin th) [Fin p; Fin rho1; Fin rho2])) ->
  exists cs : list R,
    c_fdata c = map Fin cs /\ c_f c = dinidlGaussTheta.NDIntegrand
    /\ forall k, (k < 2)%nat -> (0 < Spec.coef cs k)%R /\ (0 < Spec.coef cs (k + 2))%R.
Proof.
  intros Hp H1 H2 Hc. assert (Hq : (0 < 1 - p)%R) by lra. destruct Hp as [Hp _].
  rewrite diTheta_fin in Hc by assumption. cbn [calls snd] in Hc.
  destruct Hc as [<-|[<-|[]]]; eexists; (split; [reflexivity|]);
    (split; [reflexivity|]); intros k Hk.
  - now apply correlated_weights_pos.
  - now apply marginal_weights_pos.
Qed.

Lemma mexFunction_calls_positive (p rho1 rho2 : R) (m n : Z) (c : hcub_call xreal) :
  (0 < p < 1)%R -> (-1 < rho1 < 1)%R -> (-1 < rho2 < 1)%R ->
  In c (calls (infoGauss.mexFunction hcub junk (m, n) [Fin p; Fin rho1; Fin rho2])) ->
  exists cs : list R,
    c_fdata c = map Fin cs /\ c_f c = infoGauss.NDIntegrand
    /\ forall k, (k < 2)%nat -> (0 < Spec.coef cs (k + 2))%R.
Proof.
  intros Hp H1 H2 Hc. assert (Hq : (0 < 1 - p)%R) by lra. destruct Hp as [Hp _].
  rewrite mexFunction_fin in Hc by assumption.
  destruct Hc as [<-|[]]. destruct (Z.max m n =? 1)%Z; eexists;
    (split; [reflexivity|]); (split; [reflexivity|]); intros k Hk.
  - rewrite <- (app_nil_r (Coefficients.marginal p (1 - p)%R)).
    now apply marginal_weights_pos.
  - rewrite <- (app_nil_r (Coefficients.correlated p (1 - p)%R rho1 rho2)).
    now apply correlated_weights_pos.
Qed.

Lemma divergence_value_nonneg (cs pt : list R) :
  (forall k, (k < 2)%nat -> (0 < Spec.coef cs k)%R /\ (0 < Spec.coef cs (k + 2))%R) ->
  dinidlGaussTheta.NDIntegrand (length pt) 1 (map Fin pt) (map Fin cs) 1
  = [Fin (Spec.divergence cs pt)]
  /\ (0 <= Spec.divergence cs pt)%R.
Proof.
  intros Hw.
  destruct (Hw 0%nat) as [Q0 W0]; [lia|]. destruct (Hw 1%nat) as [Q1 W1]; [lia|].
  pose proof (psx_pos cs pt 0 W0) as P0. pose proof (psx_pos cs pt 1 W1) as P1.
  pose proof (pisx_pos cs pt 0 Q0) as R0. pose proof (pisx_pos cs pt 1 Q1) as R1.
  split.
  - unfold dinidlGaussTheta.NDIntegrand. cbn [dinidlGaussTheta.points].
    now rewrite di_point_fin.
  - unfold Spec.divergence. cbv zeta. now apply log_sum.
Qed.

Lemma entropy_value_neg (cs pt : list R) :
  (forall k, (k < 2)%nat -> (0 < Spec.coef cs (k + 2))%R) ->
  infoGauss.NDIntegrand (length pt) 1 (map Fin pt) (map Fin cs) 1
  = [Fin (Spec.entropy cs pt)]
  /\ (Spec.entropy cs pt < 0)%R.
Proof.
  intros Hw.
  pose proof (psx_pos cs pt 0 (Hw 0%nat ltac:(lia))) as P0.
  pose proof (psx_pos cs pt 1 (Hw 1%nat ltac:(lia))) as P1.
  split.
  - unfold infoGauss.NDIntegrand. cbn [infoGauss.points].
    now rewrite info_point_fin.
  - unfold Spec.entropy. cbv zeta. now apply entropy_negative.
Qed.

End SignsOfIntegrands.

(** X4.  For [0 < p < 1], [|rho1| < 1], [|rho2| < 1] and every finite
    threshold (of either sign), with exact arithmetic on finite values: in
    both integrals [diTheta] asks for, the divergence integrand returns a
    finite, non-negative value at every finite sample point. *)
Theorem divergence_integrand_nonnegative :
  forall (hcub : cubature xreal) (junk : nat -> xreal) (p rho1 rho2 th : R)
         (c : hcub_call xreal) (pt : list R),
    (0 < p < 1)%R -> (-1 < rho1 < 1)%R -> (-1 < rho2 < 1)%R ->
    In c (calls (dinidlGaussTheta.diTheta hcub junk (Fin th)
                   [Fin p; Fin rho1; Fin rho2])) ->
    exists v : R,
      c_f c (length pt) 1 (map Fin pt) (c_fdata c) 1 = [Fin v] /\ (0 <= v)%R.
Proof.
  intros hcub junk p rho1 rho2 th c pt Hp H1 H2 Hc.
  destruct (@diTheta_calls_positive hcub junk p rho1 rho2 th c Hp H1 H2 Hc)
    as (cs & -> & -> & Hw).
  exists (Spec.divergence cs pt). now apply divergence_value_nonneg.
Qed.

Lemma divergence_integrand_nonnegative_witness :
  exists v : R,
    dinidlGaussTheta.NDIntegrand 2 1 [Fin 0; Fin 3]
      (map Fin (Coefficients.correlated (1 / 4) (1 - 1 / 4) (1 / 2) 0 ++ [-2; -2]%R)) 1
    = [Fin v] /\ (0 <= v)%R.
Proof.
  apply (@divergence_integrand_nonnegative zero_cubature nan_junk (1 / 4) (1 / 2) 0 (-2)
           (cubature_call dinidlGaussTheta.NDIntegrand
              (map Fin (Coefficients.correlated (1 / 4) (1 - 1 / 4) (1 / 2) 0 ++ [-2; -2]%R))
              2)
           [0; 3]%R); try lra.
  rewrite diTheta_fin by lra. left. reflexivity.
Defined.

(** X5.  For [0 < p < 1], [|rho1| < 1], [|rho2| < 1], with exact arithmetic
    on finite values: in the integral [infoGauss.mexFunction] asks for, the
    entropy integrand returns a finite, strictly negative value at every
    finite sample point. *)
Theorem entropy_integrand_negative :
  forall (hcub : cubature xreal) (junk : nat -> xreal) (p rho1 rho2 : R) (m n : Z)
         (c : hcub_call xreal) (pt : list R),
    (0 < p < 1)%R -> (-1 < rho1 < 1)%R -> (-1 < rho2 < 1)%R ->
    In c (calls (infoGauss.mexFunction hcub junk (m, n) [Fin p; Fin rho1; Fin rho2])) ->
    exists v : R,
      c_f c (length pt) 1 (map Fin pt) (c_fdata c) 1 = [Fin v] /\ (v < 0)%R.
Proof.
  intros hcub junk p rho1 rho2 m n c pt Hp H1 H2 Hc.
  destruct (@mexFunction_calls_positive hcub junk p rho1 rho2 m n c Hp H1 H2 Hc)
    as (cs & -> & -> & Hw).
  exists (Spec.entropy cs pt). now apply entropy_value_neg.
Qed.

Lemma entropy_integrand_negative_witness :
  exists v : R,
    infoGauss.NDIntegrand 1 1 [Fin 3]
      (map Fin (Coefficients.marginal (1 / 4) (1 - 1 / 4))) 1
    = [Fin v] /\ (v < 0)%R.
Proof.
  apply (@entropy_integrand_negative zero_cubature nan_junk (1 / 4) 0 0 1 1
           (cubature_call infoGauss.NDIntegrand
              (map Fin (Coefficients.marginal (1 / 4) (1 - 1 / 4))) 1)
           [3]%R); try lra.
  rewrite mexFunction_fin by lra. left. reflexivity.
Defined.

(** X6.  On idealised doubles, that is with exact arithmetic on finite
    values: for a mixing weight [0 < p < 1] and a finite estimate [e] of the
    integral, [infoGauss.mexFunction] returns a finite value above [e] and at
    most [e + log 2], the term it adds to the estimate lying in (0, log 2].
    Rounding is not modelled: where the sum is rounded, a term far below the
    estimate can be absorbed, and only the bounds of the exact sum are
    stated here. *)
Theorem mutual_information_bounds :
  forall (hcub : cubature xreal) (junk : nat -> xreal) (p : R) (rhos : list xreal)
         (m n : Z),
    (0 < p < 1)%R ->
    exists c : hcub_call xreal,
      calls (infoGauss.mexFunction hcub junk (m, n) (Fin p :: rhos)) = [c]
      /\ forall e : R,
          fst (hcub c) = Fin e ->
          exists v : R,
            value (infoGauss.mexFunction hcub junk (m, n) (Fin p :: rhos)) = Fin v
            /\ (e < v <= e + ln 2)%R.
Proof.
  intros hcub junk p rhos m n Hp.
  pose proof (binary_entropy_bounds Hp) as Hb.
  destruct (Z.eqb_spec (Z.max m n) 1) as [E|E].
  - rewrite mexFunction_unfold_1D by assumption. cbv zeta.
    eexists. split; [reflexivity|]. cbn [value fst rd nth].
    rewrite entropy_term_fin by assumption. intros e ->.
    eexists. split; [reflexivity|]. lra.
  - rewrite mexFunction_unfold_2D by assumption. cbv zeta.
    eexists. split; [reflexivity|]. cbn [value fst rd nth].
    rewrite entropy_term_fin by assumption. intros e ->.
    eexists. split; [reflexivity|]. lra.
Qed.

Lemma mutual_information_bounds_witness :
  exists c : hcub_call xreal,
    calls (infoGauss.mexFunction zero_cubature nan_junk (1%Z, 1%Z) [Fin (1 / 4)]) = [c]
    /\ forall e : R,
        fst (zero_cubature c) = Fin e ->
        exists v : R,
          value (infoGauss.mexFunction zero_cubature nan_junk (1%Z, 1%Z) [Fin (1 / 4)])
          = Fin v
          /\ (e < v <= e + ln 2)%R.
Proof.
  apply (@mutual_information_bounds zero_cubature nan_junk (1 / 4) [] 1 1). lra.
Defined.

(** ** Parameters outside the domain *)

Section OutsideTheDomain.
Variable hcub : cubature xreal.
Variable junk : nat -> xreal.

Lemma xadd_nan_r (a : xreal) : xadd a NaN = NaN.
Proof. now destruct a. Qed.

Lemma xmul_nan_r (a : xreal) : xmul a NaN = NaN.
Proof. now destruct a. Qed.

Lemma xsub_nan_r (a : xreal) : xsub a NaN = NaN.
Proof. now destruct a. Qed.

Lemma xfinite_inf_of (s : comparison) : xfinite (inf_of s) = false.
Proof. now destruct s. Qed.

(** [-p log p - (1-p) log (1-p)] for [p] outside (0, 1). *)
Lemma entropy_term_nan (p : xreal) :
  (forall r : R, p = Fin r -> ~ (0 < r < 1)%R) ->
  ((- p) * dlog p - (lit 1 - p) * dlog (lit 1 - p))%D = NaN.
Proof.
  intros Hp. destruct p as [r| | |]; [|reflexivity..].
  specialize (Hp r eq_refl). rewrite one_minus_fin.
  cbn [dneg dmul dlog dsub xreal_ops xneg].
  destruct (total_order_T r 0) as [[H|H]|H].
  - now rewrite (xlog_neg H).
  - subst r. cbn [xlog]. rewrite Rsgn_zero. cbn [xmul xsgn sgn_mul].
    rewrite (@Rsgn_eq0 (- 0)%R) by lra. reflexivity.
  - rewrite (xlog_fin H). cbn [xmul].
    destruct (Req_dec r 1) as [E|E].
    + subst r. cbn [xlog]. rewrite (@Rsgn_eq0 (1 - 1)%R) by lra.
      cbn [xmul xsgn sgn_mul]. rewrite (@Rsgn_eq0 (1 - 1)%R) by lra. reflexivity.
    + assert (G : (1 < r)%R).
      { destruct (Rtotal_order r 1) as [L|[L|L]];
          [exfalso; apply Hp; lra|contradiction|assumption]. }
      rewrite xlog_neg by lra. reflexivity.
Qed.

Lemma sumsq_nonneg (k : nat) (pt : list R) : (0 <= Spec.sumsq k pt)%R.
Proof.
  unfold Spec.sumsq. induction pt as [|h t IH]; simpl; [lra|].
  pose proof (Rle_0_sqr (h + Spec.mu k)) as Hsq. unfold Rsqr in Hsq. lra.
Qed.

(** The densities of a class at a finite point, for any coefficients. *)
Lemma di_densities_at (params : list xreal) (pt : list R) (k : nat) : (k < 2)%nat ->
  dinidlGaussTheta.densities (length pt) (map Fin pt) params k
  = (xmul (rd params (k + 2))
       (xexp (xadd (xmul (rd params (k + 4)) (Fin (Spec.sumsq k pt * - 0.5)))
                (xmul (rd params (k + 6)) (Fin (Spec.prod k pt))))),
     xmul (rd params (k + 0))
       (xexp (xmul (rd params (k + 8)) (Fin (Spec.sumsq k pt * - 0.5))))).
Proof.
  intros Hk. unfold dinidlGaussTheta.densities.
  rewrite (di_mu_fin Hk), !lit_fin, di_center_fin.
  cbn [dmul dadd dexp xreal_ops xmul].
  replace (Q2R 1 * Spec.prod k pt)%R with (Spec.prod k pt) by (unfold Q2R; simpl; field).
  replace ((Q2R 0 + Spec.sumsq k pt) * Q2R (-0.5))%R with (Spec.sumsq k pt * - 0.5)%R
    by (unfold Q2R; simpl; field).
  reflexivity.
Qed.

Lemma info_density_at (params : list xreal) (pt : list R) (k : nat) : (k < 2)%nat ->
  infoGauss.density (length pt) (map Fin pt) params k
  = xmul (rd params (k + 2))
      (xexp (xadd (xmul (rd params (k + 4)) (Fin (Spec.sumsq k pt * - 0.5)))
               (xmul (rd params (k + 6)) (Fin (Spec.prod k pt))))).
Proof.
  intros Hk. unfold infoGauss.density.
  rewrite (info_mu_fin Hk), !lit_fin, info_center_fin.
  cbn [dmul dadd dexp xreal_ops xmul].
  replace (Q2R 1 * Spec.prod k pt)%R with (Spec.prod k pt) by (unfold Q2R; simpl; field).
  replace ((Q2R 0 + Spec.sumsq k pt) * Q2R (-0.5))%R with (Spec.sumsq k pt * - 0.5)%R
    by (unfold Q2R; simpl; field).
  reflexivity.
Qed.

(** A weight that is NaN, or an infinite weight with an infinite scale,
    makes the density NaN wherever the point is. *)
Lemma density_nan (w a b : xreal) (S P : R) :
  (0 <= S)%R ->
  w = NaN \/ (a = PInf /\ xfinite w = false) ->
  xmul w (xexp (xadd (xmul a (Fin (S * - 0.5))) (xmul b (Fin P)))) = NaN.
Proof.
  intros HS [->|[-> Hw]]; [reflexivity|].
  cbn [xmul xsgn].
  assert (E : Rsgn (S * - 0.5) = Lt \/ Rsgn (S * - 0.5) = Eq).
  { unfold Rsgn. destruct (total_order_T (S * - 0.5) 0) as [[H|H]|H]; auto. lra. }
  destruct E as [-> | ->]; cbn [sgn_mul inf_of];
    [|cbn [xadd xexp]; now rewrite xmul_nan_r].
  assert (E : xexp (xadd NInf (xmul b (Fin P))) = Fin 0 \/
              xexp (xadd NInf (xmul b (Fin P))) = NaN).
  { destruct (xmul b (Fin P)); cbn; auto. }
  destruct E as [-> | ->]; [|now rewrite xmul_nan_r].
  destruct w; try discriminate; cbn [xmul xsgn]; rewrite ?Rsgn_zero; reflexivity.
Qed.

(** The scale and the weight computed from a correlation outside (-1, 1). *)
Lemma weight_outside (p : xreal) (rho : R) :
  (1 <= rho * rho)%R ->
  let a := (lit 1.0 / (lit 1.0 - Fin rho * Fin rho))%D in
  let w := (p * dsqrt a / (lit 2.0 * M_PI))%D in
  w = NaN \/ (a = PInf /\ xfinite w = false).
Proof.
  intros H a w. subst w a. destruct (Req_dec (rho * rho) 1) as [E|E].
  - right. rewrite (a_infinite E). split; [reflexivity|].
    rewrite lit_two. cbn [dmul ddiv dsqrt M_PI xreal_ops xsqrt xmul].
    destruct p as [r| | |]; cbn [xmul xsgn sgn_mul]; try reflexivity.
    + destruct (Rsgn r); cbn; try reflexivity; apply xfinite_inf_of.
    + cbn. apply xfinite_inf_of.
    + cbn. apply xfinite_inf_of.
  - left. rewrite lit_one'. cbn [dmul dsub ddiv dsqrt xreal_ops xmul xsub].
    rewrite xdiv_fin by lra.
    assert (N : (1 / (1 - rho * rho) < 0)%R).
    { assert (I : (/ (1 - rho * rho) < 0)%R) by (apply Rinv_lt_0_compat; lra).
      unfold Rdiv. lra. }
    cbn [xsqrt]. rewrite (Rsgn_neg N). rewrite xmul_nan_r. reflexivity.
Qed.

Lemma di_term_nan xdim (x params : list xreal) (k : nat) :
  fst (dinidlGaussTheta.densities xdim x params k) = NaN ->
  xfinite (divergence_term xdim x params k) = false.
Proof.
  unfold divergence_term. destruct (dinidlGaussTheta.densities xdim x params k) as [u v].
  cbn [fst]. now intros ->.
Qed.

Lemma info_term_nan xdim (x params : list xreal) (k : nat) :
  infoGauss.density xdim x params k = NaN ->
  xfinite (entropy_term xdim x params k) = false.
Proof. unfold entropy_term. cbv zeta. now intros ->. Qed.

End OutsideTheDomain.

(** X7.  On idealised doubles, for a mixing weight [p] that is not a number
    strictly between 0 and 1 (0, 1, a negative number, a number above 1, an
    infinity or NaN), [infoGauss.mexFunction] returns NaN, whatever the
    integrator returns, the correlations are and the dimensions of the
    parameter array are. *)
Theorem mutual_information_nan :
  forall (hcub : cubature xreal) (junk : nat -> xreal) (p : xreal) (rhos : list xreal)
         (m n : Z),
    (forall r : R, p = Fin r -> ~ (0 < r < 1)%R) ->
    value (infoGauss.mexFunction hcub junk (m, n) (p :: rhos)) = NaN.
Proof.
  intros hcub junk p rhos m n Hp.
  destruct (Z.eqb_spec (Z.max m n) 1) as [E|E].
  - rewrite mexFunction_unfold_1D by assumption. cbv zeta. cbn [value fst rd nth].
    rewrite (entropy_term_nan Hp). apply xadd_nan_r.
  - rewrite mexFunction_unfold_2D by assumption. cbv zeta. cbn [value fst rd nth].
    rewrite (entropy_term_nan Hp). apply xadd_nan_r.
Qed.

Lemma mutual_information_nan_witness :
  value (infoGauss.mexFunction zero_cubature nan_junk (1%Z, 3%Z)
           [Fin 1; Fin (1 / 2); Fin 0]) = NaN.
Proof.
  apply (@mutual_information_nan zero_cubature nan_junk (Fin 1) [Fin (1 / 2); Fin 0]%R 1 3).
  intros r E. injection E as <-. lra.
Defined.

(** X8.  On idealised doubles, if [rho1^2 >= 1] or [rho2^2 >= 1], then
    whatever the mixing weight and the threshold are (finite or not), the
    two-dimensional integrand of either program stores 0 at every finite
    sample point: the density of the class with that correlation is NaN, the
    guard of the class loop stops the sum and the point counts as 0.  The
    integrator is called all the same. *)
Theorem correlation_outside_zero_integrand :
  forall (hcub : cubature xreal) (junk : nat -> xreal) (p th : xreal) (rho1 rho2 : R)
         (m n : Z),
    (1 <= rho1 * rho1 \/ 1 <= rho2 * rho2)%R ->
    (exists (c : hcub_call xreal) (rest : list (hcub_call xreal)),
        calls (dinidlGaussTheta.diTheta hcub junk th [p; Fin rho1; Fin rho2]) = c :: rest
        /\ c_dim c = 2%nat
        /\ forall pt : list R,
            c_f c (length pt) 1 (map Fin pt) (c_fdata c) 1 = [Fin 0])
    /\ (Z.max m n <> 1%Z ->
        exists c : hcub_call xreal,
          calls (infoGauss.mexFunction hcub junk (m, n) [p; Fin rho1; Fin rho2]) = [c]
          /\ c_dim c = 2%nat
          /\ forall pt : list R,
              c_f c (length pt) 1 (map Fin pt) (c_fdata c) 1 = [Fin 0]).
Proof.
  intros hcub junk p th rho1 rho2 m n Hrho. split.
  - rewrite diTheta_unfold. cbv zeta. cbn [calls snd rd nth].
    eexists. eexists. split; [reflexivity|]. split; [reflexivity|]. intros pt.
    cbn [c_f c_fdata cubature_call]. unfold dinidlGaussTheta.NDIntegrand.
    cbn [dinidlGaussTheta.points]. rewrite <- lit_zero. f_equal.
    apply di_point_zero. destruct Hrho as [H|H]; [left|right];
      apply di_term_nan; rewrite di_densities_at by lia; cbn [fst rd nth Nat.add];
      apply density_nan; try apply sumsq_nonneg.
    + apply (weight_outside p H).
    + apply (weight_outside (lit 1 - p)%D H).
  - intros Hmn. rewrite mexFunction_unfold_2D by assumption. cbv zeta.
    cbn [calls snd rd nth].
    eexists. split; [reflexivity|]. split; [reflexivity|]. intros pt.
    cbn [c_f c_fdata cubature_call]. unfold infoGauss.NDIntegrand.
    cbn [infoGauss.points]. rewrite <- lit_zero. f_equal.
    apply info_point_zero. destruct Hrho as [H|H]; [left|right];
      apply info_term_nan; rewrite info_density_at by lia; cbn [rd nth Nat.add];
      apply density_nan; try apply sumsq_nonneg.
    + apply (weight_outside p H).
    + apply (weight_outside (lit 1 - p)%D H).
Qed.

Lemma correlation_outside_zero_integrand_witness :
  (exists (c : hcub_call xreal) (rest : list (hcub_call xreal)),
      calls (dinidlGaussTheta.diTheta zero_cubature nan_junk (Fin 1)
               [Fin (1 / 2); Fin 1; Fin 0]) = c :: rest
      /\ c_dim c = 2%nat
      /\ forall pt : list R,
          c_f c (length pt) 1 (map Fin pt) (c_fdata c) 1 = [Fin 0])
  /\ (Z.max 1 3 <> 1%Z ->
      exists c : hcub_call xreal,
        calls (infoGauss.mexFunction zero_cubature nan_junk (1%Z, 3%Z)
                 [Fin (1 / 2); Fin 1; Fin 0]) = [c]
        /\ c_dim c = 2%nat
        /\ forall pt : list R,
            c_f c (length pt) 1 (map Fin pt) (c_fdata c) 1 = [Fin 0]).
Proof.
  apply (@correlation_outside_zero_integrand zero_cubature nan_junk (Fin (1 / 2)) (Fin 1)
           1 0 1 3).
  left. lra.
Defined.

(** ** The reference scale 1 and the one-class mixtures *)

Section Proportional.
Local Open Scope R_scope.

(** Densities proportional to those of the reference model lose nothing. *)
Lemma divergence_proportional (cs pt : list R) (c : R) :
  0 < c -> 0 < Spec.pisx cs 0 pt -> 0 < Spec.pisx cs 1 pt ->
  Spec.psx cs 0 pt = c * Spec.pisx cs 0 pt ->
  Spec.psx cs 1 pt = c * Spec.pisx cs 1 pt ->
  dinidlGaussTheta.NDIntegrand (length pt) 1%nat (map Fin pt) (map Fin cs) 1%nat = [Fin 0].
Proof.
  intros Hc R0 R1 E0 E1.
  assert (P0 : 0 < Spec.psx cs 0 pt) by (rewrite E0; now apply Rmult_lt_0_compat).
  assert (P1 : 0 < Spec.psx cs 1 pt) by (rewrite E1; now apply Rmult_lt_0_compat).
  unfold dinidlGaussTheta.NDIntegrand. cbn [dinidlGaussTheta.points].
  rewrite di_point_fin by assumption. do 2 f_equal.
  unfold Spec.divergence. cbv zeta. now apply (@log_sum_equal _ _ _ _ c).
Qed.

Lemma marginal_proportional (p1 p2 : R) (pt : list R) (k : nat) : (k < 2)%nat ->
  Spec.psx (Coefficients.marginal p1 p2 ++ [1; 1]) k pt
  = / sqrt (2 * PI) * Spec.pisx (Coefficients.marginal p1 p2 ++ [1; 1]) k pt.
Proof.
  intros Hk. pose proof sqrt_2PI_pos as Hs. unfold Spec.psx, Spec.pisx.
  destruct k as [|[|k]]; [| |lia]; cbn [Spec.coef Coefficients.marginal app nth Nat.add].
  - replace (- 0.5 * 1 * Spec.sumsq 0 pt + 0 * Spec.prod 0 pt)
      with (- 0.5 * 1 * Spec.sumsq 0 pt) by lra.
    field. lra.
  - replace (- 0.5 * 1 * Spec.sumsq 1 pt + 0 * Spec.prod 1 pt)
      with (- 0.5 * 1 * Spec.sumsq 1 pt) by lra.
    field. lra.
Qed.

Lemma a_zero : Coefficients.a 0 = 1.
Proof. unfold Coefficients.a. field. Qed.

Lemma uncorrelated_proportional (p1 p2 : R) (pt : list R) (k : nat) : (k < 2)%nat ->
  Spec.psx (Coefficients.correlated p1 p2 0 0 ++ [1; 1]) k pt
  = / (2 * PI) * Spec.pisx (Coefficients.correlated p1 p2 0 0 ++ [1; 1]) k pt.
Proof.
  intros Hk. pose proof PI2_pos as HPI. unfold Spec.psx, Spec.pisx.
  destruct k as [|[|k]]; [| |lia];
    cbn [Spec.coef Coefficients.correlated app nth Nat.add]; rewrite !a_zero, sqrt_1.
  - replace (- 0.5 * 1 * Spec.sumsq 0 pt + 0 * 1 * Spec.prod 0 pt)
      with (- 0.5 * 1 * Spec.sumsq 0 pt) by lra.
    field. lra.
  - replace (- 0.5 * 1 * Spec.sumsq 1 pt + 0 * 1 * Spec.prod 1 pt)
      with (- 0.5 * 1 * Spec.sumsq 1 pt) by lra.
    field. lra.
Qed.

(** A class of weight 0 makes its term of either integrand NaN. *)
Lemma di_term_weightless (cs pt : list R) (k : nat) : (k < 2)%nat ->
  Spec.coef cs k = 0 -> Spec.coef cs (k + 2) = 0 ->
  xfinite (divergence_term (length pt) (map Fin pt) (map Fin cs) k) = false.
Proof.
  intros Hk E0 E2. unfold divergence_term. rewrite di_densities_fin by assumption.
  unfold Spec.psx, Spec.pisx. rewrite E0, E2, !Rmult_0_l.
  cbn [dmul ddiv dlog xreal_ops xdiv]. now rewrite !Rsgn_zero.
Qed.

Lemma info_term_weightless (cs pt : list R) (k : nat) : (k < 2)%nat ->
  Spec.coef cs (k + 2) = 0 ->
  xfinite (entropy_term (length pt) (map Fin pt) (map Fin cs) k) = false.
Proof.
  intros Hk E2. unfold entropy_term. rewrite info_density_fin by assumption.
  unfold Spec.psx. rewrite E2, !Rmult_0_l.
  cbn [dmul dlog xreal_ops xlog]. rewrite Rsgn_zero. cbn [xmul xsgn sgn_mul].
  now rewrite Rsgn_zero.
Qed.

Lemma di_weightless_zero (cs pt : list R) :
  (exists k, (k < 2)%nat /\ Spec.coef cs k = 0 /\ Spec.coef cs (k + 2) = 0) ->
  dinidlGaussTheta.NDIntegrand (length pt) 1%nat (map Fin pt) (map Fin cs) 1%nat = [Fin 0].
Proof.
  intros (k & Hk & E0 & E2). unfold dinidlGaussTheta.NDIntegrand.
  cbn [dinidlGaussTheta.points]. rewrite <- lit_zero. f_equal.
  apply di_point_zero. destruct k as [|[|k]]; [left|right|lia];
    now apply di_term_weightless.
Qed.

Lemma info_weightless_zero (cs pt : list R) :
  (exists k, (k < 2)%nat /\ Spec.coef cs (k + 2) = 0) ->
  infoGauss.NDIntegrand (length pt) 1%nat (map Fin pt) (map Fin cs) 1%nat = [Fin 0].
Proof.
  intros (k & Hk & E2). unfold infoGauss.NDIntegrand.
  cbn [infoGauss.points]. rewrite <- lit_zero. f_equal.
  apply info_point_zero. destruct k as [|[|k]]; [left|right|lia];
    now apply info_term_weightless.
Qed.

End Proportional.

(** X11.  For [0 < p < 1], [|rho1| < 1], [|rho2| < 1] and the threshold 1,
    with exact arithmetic on finite values: the one-dimensional integrand of
    [diTheta] is 0 at every finite point, the densities of the model being
    those of the reference model up to the factor [1/sqrt(2 pi)]; and when
    both correlations are 0 the two-dimensional integrand is 0 at every
    finite point as well. *)
Theorem unit_threshold_loses_nothing :
  forall (hcub : cubature xreal) (junk : nat -> xreal) (p rho1 rho2 : R),
    (0 < p < 1)%R -> (-1 < rho1 < 1)%R -> (-1 < rho2 < 1)%R ->
    exists square segment : hcub_call xreal,
      calls (dinidlGaussTheta.diTheta hcub junk (Fin 1) [Fin p; Fin rho1; Fin rho2])
      = [square; segment]
      /\ (forall pt : list R,
             c_f segment (length pt) 1 (map Fin pt) (c_fdata segment) 1 = [Fin 0])
      /\ (rho1 = 0%R -> rho2 = 0%R ->
          forall pt : list R,
            c_f square (length pt) 1 (map Fin pt) (c_fdata square) 1 = [Fin 0]).
Proof.
  intros hcub junk p rho1 rho2 Hp H1 H2.
  rewrite diTheta_fin by assumption. cbn [calls snd].
  eexists. eexists. split; [reflexivity|].
  cbn [c_f c_fdata cubature_call]. split.
  - intros pt.
    apply (@divergence_proportional _ pt (/ sqrt (2 * PI))%R).
    + apply Rinv_0_lt_compat, sqrt_2PI_pos.
    + apply pisx_pos. cbn. lra.
    + apply pisx_pos. cbn. lra.
    + apply marginal_proportional. lia.
    + apply marginal_proportional. lia.
  - intros -> -> pt.
    apply (@divergence_proportional _ pt (/ (2 * PI))%R).
    + apply Rinv_0_lt_compat, PI2_pos.
    + apply pisx_pos. cbn. lra.
    + apply pisx_pos. cbn. lra.
    + apply uncorrelated_proportional. lia.
    + apply uncorrelated_proportional. lia.
Qed.

Lemma unit_threshold_loses_nothing_witness :
  exists square segment : hcub_call xreal,
    calls (dinidlGaussTheta.diTheta zero_cubature nan_junk (Fin 1)
             [Fin (1 / 4); Fin 0; Fin 0])
    = [square; segment]
    /\ (forall pt : list R,
           c_f segment (length pt) 1 (map Fin pt) (c_fdata segment) 1 = [Fin 0])
    /\ (0%R = 0%R -> 0%R = 0%R ->
        forall pt : list R,
          c_f square (length pt) 1 (map Fin pt) (c_fdata square) 1 = [Fin 0]).
Proof.
  apply (@unit_threshold_loses_nothing zero_cubature nan_junk (1 / 4) 0 0); lra.
Defined.

(** X12.  For a mixture of one class only, [p = 0] or [p = 1], with
    [|rho1| < 1], [|rho2| < 1] and a finite threshold: every integrand of
    [diTheta] and the integrand of [infoGauss.mexFunction] store 0 at every
    finite point.  The density of the missing class is 0, its term is
    [0 * log(0/0)] or [0 * log 0], which is NaN, and the guard drops the whole
    point with it, the term of the other class included. *)
Theorem one_class_zero_integrand :
  forall (hcub : cubature xreal) (junk : nat -> xreal) (p rho1 rho2 th : R) (m n : Z)
         (c : hcub_call xreal) (pt : list R),
    (p = 0 \/ p = 1)%R -> (-1 < rho1 < 1)%R -> (-1 < rho2 < 1)%R ->
    In c (calls (dinidlGaussTheta.diTheta hcub junk (Fin th)
                   [Fin p; Fin rho1; Fin rho2])
          ++ calls (infoGauss.mexFunction hcub junk (m, n)
                      [Fin p; Fin rho1; Fin rho2])) ->
    c_f c (length pt) 1 (map Fin pt) (c_fdata c) 1 = [Fin 0].
Proof.
  intros hcub junk p rho1 rho2 th m n c pt Hp H1 H2 Hc.
  rewrite diTheta_fin, mexFunction_fin in Hc by assumption. cbn [calls snd app] in Hc.
  assert (Z0 : forall x : R, (0 * x / (2 * PI) = 0)%R).
  { intros x. pose proof PI2_pos. field. lra. }
  assert (Z1 : (0 / sqrt (2 * PI) = 0)%R).
  { pose proof sqrt_2PI_pos. field. lra. }
  destruct Hc as [<-|[<-|[<-|[]]]]; cbn [c_f c_fdata cubature_call].
  - apply di_weightless_zero. destruct Hp as [-> | ->].
    + exists 0%nat. cbn. split; [lia|split; [lra|apply Z0]].
    + exists 1%nat. cbn. replace (1 - 1)%R with 0%R by lra.
      split; [lia|split; [lra|apply Z0]].
  - apply di_weightless_zero. destruct Hp as [-> | ->].
    + exists 1%nat. cbn. split; [lia|split; [lra|apply Z1]].
    + exists 0%nat. cbn. replace (1 - 1)%R with 0%R by lra.
      split; [lia|split; [lra|apply Z1]].
  - destruct (Z.max m n =? 1)%Z; cbn [c_f c_fdata cubature_call];
      apply info_weightless_zero; destruct Hp as [-> | ->].
    + exists 0%nat. cbn. split; [lia|apply Z1].
    + exists 1%nat. cbn. replace (1 - 1)%R with 0%R by lra. split; [lia|apply Z1].
    + exists 0%nat. cbn. split; [lia|apply Z0].
    + exists 1%nat. cbn. replace (1 - 1)%R with 0%R by lra. split; [lia|apply Z0].
Qed.

Lemma one_class_zero_integrand_witness :
  dinidlGaussTheta.NDIntegrand 2 1 [Fin 0; Fin 3]
    (map Fin (Coefficients.correlated 1 (1 - 1) (1 / 2) 0 ++ [2; 2]%R)) 1
  = [Fin 0].
Proof.
  apply (@one_class_zero_integrand zero_cubature nan_junk 1 (1 / 2) 0 2 1 3
           (cubature_call dinidlGaussTheta.NDIntegrand
              (map Fin (Coefficients.correlated 1 (1 - 1) (1 / 2) 0 ++ [2; 2]%R)) 2)
           [0; 3]%R);
    [right; reflexivity|lra|lra|].
  apply in_or_app. left. rewrite diTheta_fin by lra. left. reflexivity.
Defined.

(** ** The result of dinidlGaussTheta *)

(** X13.  For every arithmetic, integrator and minimiser: when the bracket
    search ends with a bracket [b], [mexFunction] hands the minimiser the
    middle threshold of [b] as its guess and the outer two as its bounds, and
    when the first refinement whose bracket passes the interval test is the
    [n]-th, the value stored in the output is the minimum loss the minimiser
    reports after [n] refinements; the threshold at which it is reached is
    not returned. *)
Theorem mexFunction_returns_minimum_loss :
  forall (D : Type) (ops : DoubleOps D) (hcub : cubature D) (junk : nat -> D)
         (gsl : fminimizer D) (par : list D) (fuel n : nat)
         (b : dinidlGaussTheta.bracket D) (s0 : fmin_state gsl),
    value (dinidlGaussTheta.bracket_search hcub junk par fuel) = Some b ->
    s0 = value (fmin_set gsl (fun x => dinidlGaussTheta.diTheta hcub junk x par)
                  (dinidlGaussTheta.thm b) (dinidlGaussTheta.thl b)
                  (dinidlGaussTheta.thr b)) ->
    1 <= n <= fuel ->
    (forall j : nat, 1 <= j < n ->
       interval_test gsl (refined gsl j s0) = GSL_CONTINUE) ->
    interval_test gsl (refined gsl n s0) <> GSL_CONTINUE ->
    value (dinidlGaussTheta.mexFunction hcub junk gsl fuel par)
    = Some (fmin_f_minimum gsl (refined gsl n s0)).
Proof.
  intros D ops hcub junk gsl par fuel n b s0 Hb -> Hn Hcont Hstop.
  unfold dinidlGaussTheta.mexFunction.
  rewrite value_bind, Hb, value_bind, value_bind.
  rewrite (@refine_loop_exit D ops gsl n _ _ _ fuel Hn Hcont Hstop). reflexivity.
Qed.

Lemma mexFunction_returns_minimum_loss_witness :
  value (dinidlGaussTheta.mexFunction parabola_cubature nan_junk (needs (D:=xreal) 3) 3
           [Fin (1 / 2); Fin 0; Fin 0])
  = Some (lit 0).
Proof.
  eassert (E : value (dinidlGaussTheta.bracket_search parabola_cubature nan_junk
                        [Fin (1 / 2); Fin 0; Fin 0] 3) = Some _).
  { unfold dinidlGaussTheta.bracket_search. rewrite !value_bind.
    cbn [lit xreal_ops]. rewrite !parabola_loss.
    cbn [dinidlGaussTheta.lower_loop dinidlGaussTheta.dil dinidlGaussTheta.dim
         dlt xreal_ops].
    rewrite xlt_fin_false by lra. cbn [value ret fst].
    cbn [dinidlGaussTheta.upper_loop dinidlGaussTheta.dir dinidlGaussTheta.dim
         dinidlGaussTheta.thr dinidlGaussTheta.thm dlt dmul lit xreal_ops xmul].
    rewrite xlt_fin_true by lra. rewrite value_bind, parabola_loss.
    cbn [dinidlGaussTheta.upper_loop dinidlGaussTheta.dir dinidlGaussTheta.dim
         dinidlGaussTheta.thr dinidlGaussTheta.thm dlt dmul lit xreal_ops xmul].
    rewrite xlt_fin_true by lra. rewrite value_bind, parabola_loss.
    cbn [dinidlGaussTheta.upper_loop dinidlGaussTheta.dir dinidlGaussTheta.dim
         dinidlGaussTheta.thr dinidlGaussTheta.thm dlt dmul lit xreal_ops xmul].
    rewrite xlt_fin_false by lra. reflexivity. }
  apply (@mexFunction_returns_minimum_loss xreal xreal_ops parabola_cubature nan_junk
           (needs (D:=xreal) 3) [Fin (1 / 2); Fin 0; Fin 0]%R 3 3 _ 3%nat E).
  - reflexivity.
  - lia.
  - intros j Hj. assert (J : j = 1 \/ j = 2) by lia.
    destruct J as [-> | ->]; unfold interval_test; cbn;
      destruct (Rlt_dec (Q2R 0) (Q2R 1)) as [_|H]; auto; exfalso; apply H; q2r.
  - unfold interval_test. cbn.
    destruct (Rlt_dec (Q2R 0) (Q2R 0)) as [H|_]; [exfalso; lra|discriminate].
Defined.

(** ** What the integrands and the entry points depend on *)

Section Dependence.

Lemma di_point_of_densities xdim (x x' params params' : list xreal) :
  (forall k, (k < 2)%nat ->
     dinidlGaussTheta.densities xdim x params k
     = dinidlGaussTheta.densities xdim x' params' k) ->
  dinidlGaussTheta.point xdim x params = dinidlGaussTheta.point xdim x' params'.
Proof.
  intros H. unfold dinidlGaussTheta.point.
  cbn [dinidlGaussTheta.class_loop]. unfold dinidlGaussTheta.class_step.
  now rewrite !H by lia.
Qed.

Lemma info_point_of_density xdim (x x' params params' : list xreal) :
  (forall k, (k < 2)%nat ->
     infoGauss.density xdim x params k = infoGauss.density xdim x' params' k) ->
  infoGauss.point xdim x params = infoGauss.point xdim x' params'.
Proof.
  intros H. unfold infoGauss.point.
  cbn [infoGauss.class_loop]. unfold infoGauss.class_step.
  now rewrite !H by lia.
Qed.

Lemma sumsq_swap (k : nat) (x1 x2 : R) :
  Spec.sumsq k [x1; x2] = Spec.sumsq k [x2; x1].
Proof. unfold Spec.sumsq. simpl. ring. Qed.

Lemma prod_swap (k : nat) (x1 x2 : R) :
  Spec.prod k [x1; x2] = Spec.prod k [x2; x1].
Proof. unfold Spec.prod. simpl. ring. Qed.

End Dependence.

(** X14.  With exact arithmetic on finite values, for every coefficient
    array, finite or not: both two-dimensional integrands are symmetric in
    the two coordinates of a point, so mirroring the points of the square in
    its diagonal changes no stored value. *)
Theorem integrands_symmetric :
  forall (params : list xreal) (x1 x2 : R),
    dinidlGaussTheta.NDIntegrand 2 1 [Fin x1; Fin x2] params 1
    = dinidlGaussTheta.NDIntegrand 2 1 [Fin x2; Fin x1] params 1
    /\ infoGauss.NDIntegrand 2 1 [Fin x1; Fin x2] params 1
       = infoGauss.NDIntegrand 2 1 [Fin x2; Fin x1] params 1.
Proof.
  intros params x1 x2. split.
  - unfold dinidlGaussTheta.NDIntegrand. cbn [dinidlGaussTheta.points]. f_equal.
    apply di_point_of_densities. intros k Hk.
    pose proof (@di_densities_at params [x1; x2]%R k Hk) as A.
    pose proof (@di_densities_at params [x2; x1]%R k Hk) as B.
    cbn [length map] in A, B. rewrite A, B.
    now rewrite sumsq_swap, prod_swap.
  - unfold infoGauss.NDIntegrand. cbn [infoGauss.points]. f_equal.
    apply info_point_of_density. intros k Hk.
    pose proof (@info_density_at params [x1; x2]%R k Hk) as A.
    pose proof (@info_density_at params [x2; x1]%R k Hk) as B.
    cbn [length map] in A, B. rewrite A, B.
    now rewrite sumsq_swap, prod_swap.
Qed.

(** X15.  For every arithmetic and integrator: [diTheta] and
    [infoGauss.mexFunction] read the cells 0, 1 and 2 of the parameter array
    and nothing else, so two arrays that agree there give the same calls to
    the integrator and the same result; a one-dimensional run of
    [infoGauss.mexFunction] reads cell 0 only, the correlations being
    ignored. *)
Theorem parameters_read :
  forall (D : Type) (ops : DoubleOps D) (hcub : cubature D) (junk : nat -> D)
         (th : D) (m n : Z) (par par' : list D),
    rd par 0 = rd par' 0 ->
    ((forall i : nat, 1 <= i < 3 -> rd par i = rd par' i) ->
     dinidlGaussTheta.diTheta hcub junk th par
     = dinidlGaussTheta.diTheta hcub junk th par'
     /\ infoGauss.mexFunction hcub junk (m, n) par
        = infoGauss.mexFunction hcub junk (m, n) par')
    /\ (Z.max m n = 1%Z ->
        infoGauss.mexFunction hcub junk (m, n) par
        = infoGauss.mexFunction hcub junk (m, n) par').
Proof.
  intros D ops hcub junk th m n par par' H0. split.
  - intros H. split.
    + rewrite !diTheta_unfold. cbv zeta. now rewrite H0, !H by lia.
    + destruct (Z.eqb_spec (Z.max m n) 1) as [E|E].
      * rewrite !mexFunction_unfold_1D by assumption. cbv zeta. now rewrite H0.
      * rewrite !mexFunction_unfold_2D by assumption. cbv zeta.
        now rewrite H0, !H by lia.
  - intros E. rewrite !mexFunction_unfold_1D by assumption. cbv zeta. now rewrite H0.
Qed.

Lemma parameters_read_witness :
  ((forall i : nat, 1 <= i < 3 ->
      rd [Fin (1 / 2); Fin 0; Fin 0] i = rd [Fin (1 / 2); Fin (1 / 3); Fin 2; Fin 7] i) ->
   dinidlGaussTheta.diTheta zero_cubature nan_junk (Fin 2) [Fin (1 / 2); Fin 0; Fin 0]
   = dinidlGaussTheta.diTheta zero_cubature nan_junk (Fin 2)
       [Fin (1 / 2); Fin (1 / 3); Fin 2; Fin 7]
   /\ infoGauss.mexFunction zero_cubature nan_junk (1%Z, 1%Z) [Fin (1 / 2); Fin 0; Fin 0]
      = infoGauss.mexFunction zero_cubature nan_junk (1%Z, 1%Z)
          [Fin (1 / 2); Fin (1 / 3); Fin 2; Fin 7])
  /\ (Z.max 1 1 = 1%Z ->
      infoGauss.mexFunction zero_cubature nan_junk (1%Z, 1%Z) [Fin (1 / 2); Fin 0; Fin 0]
      = infoGauss.mexFunction zero_cubature nan_junk (1%Z, 1%Z)
          [Fin (1 / 2); Fin (1 / 3); Fin 2; Fin 7]).
Proof.
  apply (@parameters_read xreal xreal_ops zero_cubature nan_junk (Fin 2) 1 1
           [Fin (1 / 2); Fin 0; Fin 0]%R [Fin (1 / 2); Fin (1 / 3); Fin 2; Fin 7]%R).
  reflexivity.
Defined.
